(** * ASN.1 Object identifier (OID) registry: lib/oid_registry.c

    A shallow embedding of [look_up_OID], [lookup_oid_digest_info],
    [sprint_oid] and [sprint_OID], and the properties the specification
    states about them.

    Machine model (LP64): [unsigned] and [int] are 32 bits wide,
    [size_t] and [unsigned long] are 64 bits wide, [unsigned char] is a
    [Byte.byte].  Machine integers are represented in [Z] and every
    truncation the C code performs is written out with [wrap]. *)

From Stdlib Require Import ZArith List Lia Bool String Sorted Permutation.
From Stdlib Require Import Strings.Byte Numbers.DecimalString.
Import ListNotations.

Local Open Scope Z_scope.

(** ** Machine integers *)

(** Truncation to an unsigned integer of [w] bits. *)
Definition wrap (w z : Z) : Z := z mod 2 ^ w.

Definition u32 (z : Z) : Z := wrap 32 z.
Definition u64 (z : Z) : Z := wrap 64 z.

(** Conversion to [int]: the value modulo 2^32 that lies in
    [-2^31, 2^31). *)
Definition to_int (z : Z) : Z := (z + 2 ^ 31) mod 2 ^ 32 - 2 ^ 31.

(** The value of an [unsigned char]. *)
Definition u8 (b : byte) : Z := Z.of_N (Byte.to_N b).

(** ** Outcomes of a run

    [Ok v] is a normal return.  [Fault] is a read outside one of the
    static tables, or a [BUG_ON] that fires.  [Diverge] is a loop that
    used up its iteration budget; the theorems say for which inputs
    neither of the last two happens. *)

Inductive res (A : Type) : Type :=
| Ok (a : A)
| Fault
| Diverge.
Arguments Ok {A} a.
Arguments Fault {A}.
Arguments Diverge {A}.

Definition bind {A B : Type} (m : res A) (f : A -> res B) : res B :=
  match m with
  | Ok a => f a
  | Fault => Fault
  | Diverge => Diverge
  end.

Notation "x <- m ;; k" := (bind m (fun x => k))
  (at level 61, m at next level, right associativity).

(** [l[i]] for a C array: reading outside the array is a fault. *)
Definition at_index {A : Type} (l : list A) (i : Z) : res A :=
  if i <? 0 then Fault
  else match nth_error l (Z.to_nat i) with
       | Some a => Ok a
       | None => Fault
       end.

(** ** The hash of [look_up_OID] (lines 33-39) *)

(** One round of [hash += octets[i] * 33], on an [unsigned]. *)
Definition hash_step (hash : Z) (octet : byte) : Z :=
  u32 (hash + u8 octet * 33).

(** [hash = (hash >> 24) ^ (hash >> 16) ^ (hash >> 8) ^ hash]. *)
Definition hash_fold (hash : Z) : Z :=
  Z.lxor (Z.lxor (Z.lxor (Z.shiftr hash 24) (Z.shiftr hash 16))
                 (Z.shiftr hash 8)) hash.

(** The value of the hash: [hash = datasize - 1] truncated to
    [unsigned], one [hash_step] per octet from the first to the last, the
    fold and [hash &= 0xff].  [datasize] is the number of octets.  This is
    what lines 33-39 leave in [hash] when the loop of lines 36-37 exits;
    the loop with its counter is [hash_loop] below. *)
Definition oid_hash (octets : list byte) : Z :=
  let datasize := Z.of_nat (List.length octets) in
  let hash := u32 (datasize - 1) in
  let hash := fold_left hash_step octets hash in
  let hash := hash_fold hash in
  Z.land hash 255.

(** The loop of lines 36-37 as it runs:
    [for (i = 0; i < datasize; i++) hash += octets[i] * 33;] where [i]
    is an [unsigned], incremented with wrap-around, and [datasize] is a
    [size_t].  [budget] bounds the number of iterations. *)
Fixpoint hash_loop (octets : list byte) (budget : nat) (i hash : Z)
    : res Z :=
  let datasize := Z.of_nat (List.length octets) in
  if i <? datasize then
    match budget with
    | O => Diverge
    | S budget =>
        octet <- at_index octets i ;;
        hash_loop octets budget (u32 (i + 1)) (hash_step hash octet)
    end
  else Ok hash.

(** Lines 33-39 as they run.  A loop that exits does so after one
    iteration per octet, which is the budget. *)
Definition hash_octets (octets : list byte) : res Z :=
  let datasize := Z.of_nat (List.length octets) in
  hash <- hash_loop octets (List.length octets) 0 (u32 (datasize - 1)) ;;
  let hash := hash_fold hash in
  Ok (Z.land hash 255).

(** The reference definition in the words of the specification: the seed
    [length - 1] plus [b * 33] for every byte [b], taken modulo 2^32;
    the four byte lanes of that 32-bit accumulator; their XOR, which is
    the fold masked to 8 bits. *)
Definition weighted_sum (bytes : list byte) : Z :=
  fold_right (fun b acc => u8 b * 33 + acc) 0 bytes.

Definition lane (h n : Z) : Z := (h / 2 ^ (8 * n)) mod 256.

Definition reference_hash (bytes : list byte) : Z :=
  let seed := (Z.of_nat (List.length bytes) - 1 + weighted_sum bytes) mod 2 ^ 32 in
  Z.lxor (Z.lxor (Z.lxor (lane seed 3) (lane seed 2)) (lane seed 1)) (lane seed 0).

(** ** The registry tables

    [oid_registry_data.c] is generated at build time and is not part of
    the source file.  The tables are therefore parameters of the model,
    with the C declarations' shape: [oid_search_table[OID__NR]] of
    [{ unsigned char hash; enum OID oid; }], [oid_index[OID__NR + 1]]
    and the byte array [oid_data]. *)

Record search_entry : Type := {
  entry_hash : byte;
  entry_oid : Z
}.

Record registry : Type := {
  OID__NR : Z;
  oid_search_table : list search_entry;
  oid_index : list Z;
  oid_data : list byte
}.

(** ** [look_up_OID] (lines 25-92) *)

(** What one comparison of the candidate with the input decides:
    [k = j] (the candidate is greater), [i = j + 1] (it is smaller), or
    [return oid]. *)
Inductive verdict : Type := SearchLeft | SearchRight | Found.

(** The inner loop, lines 74-85: [while (len > 0)], comparing
    [oid_data[oid_index[oid] + --len]] with [octets[len]]. *)
Fixpoint compare_reverse (R : registry) (octets : list byte) (oid : Z)
    (len : nat) : res verdict :=
  match len with
  | O => Ok Found
  | S len =>
      base <- at_index (oid_index R) oid ;;
      a <- at_index (oid_data R) (u64 (base + Z.of_nat len)) ;;
      b <- at_index octets (Z.of_nat len) ;;
      if u8 a >? u8 b then Ok SearchLeft
      else if u8 a <? u8 b then Ok SearchRight
      else compare_reverse R octets oid len
  end.

(** The binary search, lines 47-89.  [i], [j] and [k] are [unsigned];
    [budget] bounds the number of iterations. *)
Fixpoint search_loop (R : registry) (octets : list byte) (hash : Z)
    (budget : nat) (i k : Z) : res Z :=
  let datasize := Z.of_nat (List.length octets) in
  if i <? k then
    match budget with
    | O => Diverge
    | S budget =>
        let j := u32 (i + k) / 2 in
        e <- at_index (oid_search_table R) j ;;
        let xhash := u8 (entry_hash e) in
        if xhash >? hash then search_loop R octets hash budget i j
        else if xhash <? hash then
          search_loop R octets hash budget (u32 (j + 1)) k
        else
          let oid := entry_oid e in
          hi <- at_index (oid_index R) (oid + 1) ;;
          lo <- at_index (oid_index R) oid ;;
          let len := u64 (hi - lo) in
          if len >? datasize then search_loop R octets hash budget i j
          else if len <? datasize then
            search_loop R octets hash budget (u32 (j + 1)) k
          else
            v <- compare_reverse R octets oid (Z.to_nat len) ;;
            match v with
            | SearchLeft => search_loop R octets hash budget i j
            | SearchRight => search_loop R octets hash budget (u32 (j + 1)) k
            | Found => Ok oid
            end
    end
  else Ok (OID__NR R).

(** [look_up_OID(data, datasize)] from line 45 on, with the value of the
    hash in [hash]: [octets] are the [datasize] bytes at [data].  The
    interval [k - i] shrinks on every iteration, so [OID__NR] iterations
    are a sufficient budget. *)
Definition look_up_OID (R : registry) (octets : list byte) : res Z :=
  let hash := oid_hash octets in
  search_loop R octets hash (Z.to_nat (OID__NR R)) 0 (u32 (OID__NR R)).

(** [look_up_OID(data, datasize)] from its first line, lines 25-92: the
    hash loop with its counter, then the binary search.  For fewer than
    2^32 octets it is [look_up_OID]; for more the hash loop does not
    exit. *)
Definition look_up_OID_counted (R : registry) (octets : list byte)
    : res Z :=
  hash <- hash_octets octets ;;
  search_loop R octets hash (Z.to_nat (OID__NR R)) 0 (u32 (OID__NR R)).

(** ** The registry's data model, as the specification states it *)

(** [offset[s]]. *)
Definition offset (R : registry) (s : Z) : Z :=
  nth (Z.to_nat s) (oid_index R) 0.

(** The canonical bytes of symbol [s]: the Blob range
    [[offset[s], offset[s+1])]. *)
Definition canonical_bytes (R : registry) (s : Z) : list byte :=
  firstn (Z.to_nat (offset R (s + 1) - offset R s))
         (skipn (Z.to_nat (offset R s)) (oid_data R)).

(** The shape of the tables: [OID__NR] is an enumeration constant (an
    [int]), the search index has [OID__NR] entries naming symbols, the
    offset index has [OID__NR + 1] ascending offsets into the Blob, and
    the Blob is an object in memory (its size fits [size_t]). *)
Record registry_shape (R : registry) : Prop := {
  nr_range : 0 <= OID__NR R < 2 ^ 31;
  search_table_size :
    Z.of_nat (List.length (oid_search_table R)) = OID__NR R;
  index_size : Z.of_nat (List.length (oid_index R)) = OID__NR R + 1;
  index_ascending :
    forall s, 0 <= s < OID__NR R -> 0 <= offset R s <= offset R (s + 1);
  index_within_blob :
    offset R (OID__NR R) <= Z.of_nat (List.length (oid_data R)) < 2 ^ 64;
  search_table_symbols :
    forall e, In e (oid_search_table R) -> 0 <= entry_oid e < OID__NR R
}.

(** Lexicographic comparison of byte sequences; on reversed sequences
    it compares from the last byte backward. *)
Fixpoint lex_compare (a b : list byte) : comparison :=
  match a, b with
  | [], [] => Eq
  | [], _ :: _ => Lt
  | _ :: _, [] => Gt
  | x :: a, y :: b =>
      match u8 x ?= u8 y with
      | Eq => lex_compare a b
      | c => c
      end
  end.

(** The triple sort key: hash byte, then length, then the bytes from the
    last one backward. *)
Definition key_compare (h1 : Z) (b1 : list byte) (h2 : Z) (b2 : list byte)
    : comparison :=
  match h1 ?= h2 with
  | Eq =>
      match Z.of_nat (List.length b1) ?= Z.of_nat (List.length b2) with
      | Eq => lex_compare (rev b1) (rev b2)
      | c => c
      end
  | c => c
  end.

Definition entry_compare (R : registry) (e1 e2 : search_entry) : comparison :=
  key_compare (u8 (entry_hash e1)) (canonical_bytes R (entry_oid e1))
              (u8 (entry_hash e2)) (canonical_bytes R (entry_oid e2)).

Definition entry_lt (R : registry) (e1 e2 : search_entry) : Prop :=
  entry_compare R e1 e2 = Lt.

(** The search index is in ascending triple order. *)
Definition triple_sorted (R : registry) : Prop :=
  Sorted (entry_lt R) (oid_search_table R).

(** The hash byte of an entry is the hash of its symbol's canonical
    bytes. *)
Definition hash_bytes_agree (R : registry) : Prop :=
  forall e, In e (oid_search_table R) ->
    u8 (entry_hash e) = oid_hash (canonical_bytes R (entry_oid e)).

(** The branch that the search takes for an ordering of the candidate's
    key against the input's key. *)
Definition verdict_of (c : comparison) : verdict :=
  match c with
  | Gt => SearchLeft
  | Lt => SearchRight
  | Eq => Found
  end.

(** ** [lookup_oid_digest_info] (lines 95-137) *)

(** The constants of [enum OID] that the function names.  The
    enumeration is declared in [linux/oid_registry.h], which is not part
    of the source file: the values are parameters of the model. *)
Record oid_enum : Type := {
  OID_md4WithRSAEncryption : Z;
  OID_sha1WithRSAEncryption : Z;
  OID_sha256WithRSAEncryption : Z;
  OID_sha384WithRSAEncryption : Z;
  OID_sha512WithRSAEncryption : Z;
  OID_sha224WithRSAEncryption : Z;
  OID_id_ecdsa_with_sha1 : Z;
  OID_id_ecdsa_with_sha256 : Z;
  OID_id_ecdsa_with_sha384 : Z;
  OID_id_ecdsa_with_sha512 : Z;
  OID_md4 : Z;
  OID_sha1 : Z;
  OID_sha256 : Z;
  OID_sha384 : Z;
  OID_sha512 : Z;
  OID_sha224 : Z
}.

(** The ten signature-algorithm constants, the [case] labels. *)
Definition signature_symbols (E : oid_enum) : list Z :=
  [ OID_md4WithRSAEncryption E; OID_sha1WithRSAEncryption E;
    OID_sha224WithRSAEncryption E; OID_sha256WithRSAEncryption E;
    OID_sha384WithRSAEncryption E; OID_sha512WithRSAEncryption E;
    OID_id_ecdsa_with_sha1 E; OID_id_ecdsa_with_sha256 E;
    OID_id_ecdsa_with_sha384 E; OID_id_ecdsa_with_sha512 E ].

(** The six digest constants. *)
Definition digest_symbols (E : oid_enum) : list Z :=
  [ OID_md4 E; OID_sha1 E; OID_sha224 E; OID_sha256 E; OID_sha384 E;
    OID_sha512 E ].

(** Enumeration constants are pairwise different. *)
Definition enum_distinct (E : oid_enum) : Prop :=
  NoDup (signature_symbols E ++ digest_symbols E).

(** An output parameter: [None] is a null pointer, [Some v] a pointer to
    an object that holds [v]. *)
Definition out_param (A : Type) : Type := option A.

(** [if (p) *p = v;] *)
Definition store {A : Type} (p : out_param A) (v : A) : out_param A :=
  match p with
  | None => None
  | Some _ => Some v
  end.

Record digest_outputs : Type := {
  digest_algo : out_param string;
  digest_len : out_param Z;
  digest_oid : out_param Z
}.

(** The body of one group of [case] labels. *)
Definition write_digest (out : digest_outputs) (algo : string) (oid len : Z)
    : digest_outputs :=
  {| digest_algo := store (digest_algo out) algo;
     digest_oid := store (digest_oid out) oid;
     digest_len := store (digest_len out) len |}.

(** The [switch]: the return value and the output parameters after the
    call. *)
Definition lookup_oid_digest_info (E : oid_enum) (oid : Z)
    (out : digest_outputs) : Z * digest_outputs :=
  let ret := 0 in
  if oid =? OID_md4WithRSAEncryption E then
    (ret, write_digest out "md4"%string (OID_md4 E) 16)
  else if (oid =? OID_sha1WithRSAEncryption E)
          || (oid =? OID_id_ecdsa_with_sha1 E) then
    (ret, write_digest out "sha1"%string (OID_sha1 E) 20)
  else if oid =? OID_sha224WithRSAEncryption E then
    (ret, write_digest out "sha224"%string (OID_sha224 E) 28)
  else if (oid =? OID_sha256WithRSAEncryption E)
          || (oid =? OID_id_ecdsa_with_sha256 E) then
    (ret, write_digest out "sha256"%string (OID_sha256 E) 32)
  else if (oid =? OID_sha384WithRSAEncryption E)
          || (oid =? OID_id_ecdsa_with_sha384 E) then
    (ret, write_digest out "sha384"%string (OID_sha384 E) 48)
  else if (oid =? OID_sha512WithRSAEncryption E)
          || (oid =? OID_id_ecdsa_with_sha512 E) then
    (ret, write_digest out "sha512"%string (OID_sha512 E) 64)
  else
    (-1, out).

(** The mapping in the words of the specification: the digest name, the
    digest length in bytes and the digest's own symbol of each enumerated
    signature algorithm. *)
Definition digest_table (E : oid_enum) : list (Z * (string * Z * Z)) :=
  [ (OID_md4WithRSAEncryption E, ("md4"%string, 16, OID_md4 E));
    (OID_sha1WithRSAEncryption E, ("sha1"%string, 20, OID_sha1 E));
    (OID_sha224WithRSAEncryption E, ("sha224"%string, 28, OID_sha224 E));
    (OID_sha256WithRSAEncryption E, ("sha256"%string, 32, OID_sha256 E));
    (OID_sha384WithRSAEncryption E, ("sha384"%string, 48, OID_sha384 E));
    (OID_sha512WithRSAEncryption E, ("sha512"%string, 64, OID_sha512 E));
    (OID_id_ecdsa_with_sha1 E, ("sha1"%string, 20, OID_sha1 E));
    (OID_id_ecdsa_with_sha256 E, ("sha256"%string, 32, OID_sha256 E));
    (OID_id_ecdsa_with_sha384 E, ("sha384"%string, 48, OID_sha384 E));
    (OID_id_ecdsa_with_sha512 E, ("sha512"%string, 64, OID_sha512 E)) ].

(** ** [sprint_oid] (lines 151-196) and [sprint_OID] (lines 208-219) *)

(** Modelled from the spec: the error codes [ENOBUFS] (the buffer is too
    small) and [EBADMSG] (the data is malformed) come from the kernel's
    [errno.h], which is not part of the source file; they are two
    different positive numbers, here with their generic values. *)
Definition ENOBUFS : Z := 105.
Definition EBADMSG : Z := 74.

Definition INT_MAX : Z := 2 ^ 31 - 1.

Definition NUL : byte := x00.

(** Modelled from the spec: the conversions [%u] and [%lu] of the
    kernel's [snprintf], which is not part of the source file, print an
    unsigned number in decimal, without sign or padding. *)
Definition decimal (n : Z) : string :=
  NilZero.string_of_uint (N.to_uint (Z.to_N n)).

(** Modelled from the spec: [snprintf] belongs to the kernel's library
    and is not part of the source file.  Its contract is the one the
    specification relies on: the capacity includes the terminator, the
    text is truncated to the capacity, and the value returned is the
    number of characters that were or would be written, the terminator
    excluded.  [buffer] is the region of [bufsize] bytes at the pointer
    that is passed, [text] the formatted output; the result is the
    region after the call and the return value.  The kernel's
    implementation accepts sizes up to [INT_MAX]. *)
Definition snprintf (buffer : list byte) (text : string) : list byte * Z :=
  let chars := list_byte_of_string text in
  let count := Z.of_nat (List.length chars) in
  match List.length buffer with
  | O => (buffer, count)
  | S room =>
      let kept := firstn room chars in
      (kept ++ NUL :: skipn (S (List.length kept)) buffer, count)
  end.

(** The pointer [buffer] inside the caller's buffer: the bytes it has
    moved past and the [bufsize] bytes from it to the end. *)
Record cursor : Type := {
  behind : list byte;
  ahead : list byte
}.

Definition bufsize (c : cursor) : Z := Z.of_nat (List.length (ahead c)).

(** [buffer += count; bufsize -= count;] *)
Definition advance (c : cursor) (count : Z) : cursor :=
  {| behind := behind c ++ firstn (Z.to_nat count) (ahead c);
     ahead := skipn (Z.to_nat count) (ahead c) |}.

(** [snprintf(buffer, bufsize, ...)] at the cursor. *)
Definition print_at (c : cursor) (text : string) : cursor * Z :=
  let (region, count) := snprintf (ahead c) text in
  ({| behind := behind c; ahead := region |}, count).

(** The caller's whole buffer. *)
Definition contents (c : cursor) : list byte := behind c ++ ahead c.

(** [bad: snprintf(buffer, bufsize, "(bad)"); return -EBADMSG;] *)
Definition bad (c : cursor) : Z * list byte :=
  let (c, _) := print_at c "(bad)" in
  (- EBADMSG, contents c).

(** The [do ... while (n & 0x80)] loop, lines 176-182, on the octets from
    [v] to [end]: the arc and the octets that remain, or [None] for
    [goto bad]. *)
Fixpoint continuation (num : Z) (v : list byte) : option (Z * list byte) :=
  match v with
  | [] => None
  | n :: v =>
      let num := u64 (Z.shiftl num 7) in
      let num := Z.lor num (Z.land (u8 n) 127) in
      if negb (Z.land (u8 n) 128 =? 0) then continuation num v
      else Some (num, v)
  end.

(** Lines 170-183: one arc, starting at the octet [n]. *)
Definition read_arc (n : byte) (v : list byte) : option (Z * list byte) :=
  if Z.land (u8 n) 128 =? 0 then Some (u8 n, v)
  else continuation (Z.land (u8 n) 127) v.

(** The [while (v < end)] loop, lines 169-189.  Every iteration consumes
    an octet; [budget] bounds the number of iterations. *)
Fixpoint arcs_loop (budget : nat) (v : list byte) (c : cursor) (ret : Z)
    : res (Z * list byte) :=
  match v with
  | [] => Ok (to_int ret, contents c)
  | n :: v =>
      match budget with
      | O => Diverge
      | S budget =>
          match read_arc n v with
          | None => Ok (bad c)
          | Some (num, v) =>
              let (c', count) := print_at c ("." ++ decimal num) in
              let ret := u64 (ret + count) in
              if count >=? bufsize c then Ok (- ENOBUFS, contents c')
              else arcs_loop budget v (advance c' count) ret
          end
      end
  end.

(** [sprint_oid(data, datasize, buffer, bufsize)]: [data] are the
    [datasize] octets, [buffer] the [bufsize] bytes of the caller's
    buffer.  The result is the value returned and the buffer after the
    call. *)
Definition sprint_oid (data : list byte) (buffer : list byte)
    : res (Z * list byte) :=
  let c := {| behind := []; ahead := buffer |} in
  match data with
  | [] => Ok (bad c)
  | n :: v =>
      let (c', count) :=
        print_at c (decimal (u8 n / 40) ++ "." ++ decimal (u8 n mod 40)) in
      let ret := u64 count in
      if count >=? bufsize c then Ok (- ENOBUFS, contents c')
      else arcs_loop (List.length v) v (advance c' count) ret
  end.

(** [sprint_OID(oid, buffer, bufsize)].  [BUG_ON] stops the kernel: the
    two of them are the outcome [Fault]. *)
Definition sprint_OID (R : registry) (oid : Z) (buffer : list byte)
    : res (Z * list byte) :=
  if oid >=? OID__NR R then Fault
  else
    lo <- at_index (oid_index R) oid ;;
    hi <- at_index (oid_index R) (oid + 1) ;;
    let data := firstn (Z.to_nat (u64 (hi - lo)))
                       (skipn (Z.to_nat lo) (oid_data R)) in
    r <- sprint_oid data buffer ;;
    if fst r =? - EBADMSG then Fault else Ok r.

(** ** The text of an OID, as the specification states it *)

(** The arcs after the first octet: each arc is a run of octets with the
    high bit set closed by one octet without it, read as a big-endian
    number in base 128.  [pending] is the value of an arc that has
    started.  [None]: the input ends while a continuation is expected. *)
Fixpoint later_arcs (pending : option Z) (v : list byte) : option (list Z) :=
  match v with
  | [] =>
      match pending with
      | None => Some []
      | Some _ => None
      end
  | n :: v =>
      let high := match pending with None => 0 | Some a => a end in
      let arc := high * 128 + u8 n mod 128 in
      if u8 n <? 128 then option_map (cons arc) (later_arcs None v)
      else later_arcs (Some arc) v
  end.

(** The arcs of an encoding: the first octet [n] gives [n / 40] and
    [n % 40].  [None]: the encoding is empty or truncated. *)
Definition oid_arcs (data : list byte) : option (list Z) :=
  match data with
  | [] => None
  | n :: v => option_map (fun arcs => u8 n / 40 :: u8 n mod 40 :: arcs)
                         (later_arcs None v)
  end.

Definition well_formed (data : list byte) : Prop := oid_arcs data <> None.

(** Dotted decimal text. *)
Definition dotted (arcs : list Z) : string :=
  String.concat "." (map decimal arcs).

(** An octet with the high bit set: more octets of the arc follow. *)
Definition continues (n : byte) : Prop := 128 <= u8 n.

(** The text of the arcs after the first two: [".arc"] for each. *)
Fixpoint later_text (arcs : list Z) : string :=
  match arcs with
  | [] => ""
  | arc :: arcs => "." ++ decimal arc ++ later_text arcs
  end.

(** The buffer holds the terminated string [text]. *)
Definition holds (buffer : list byte) (text : string) : Prop :=
  exists rest, buffer = list_byte_of_string text ++ NUL :: rest.

(** The length of the C string in a buffer: the number of bytes before
    the first terminator. *)
Fixpoint strlen (buffer : list byte) : nat :=
  match buffer with
  | [] => 0
  | x :: buffer => if Byte.eqb x NUL then 0 else S (strlen buffer)
  end.

(** Bytes none of which is a terminator. *)
Definition no_terminator (bytes : list byte) : Prop :=
  Forall (fun x => x <> NUL) bytes.

(** ** A sample registry

    Nineteen object identifiers of the kernel's registry, numbered here
    in the order of the Blob; the search index is in triple order. *)

Module Sample.

Definition sample_search_table : list search_entry :=
  [ {| entry_hash := x23; entry_oid := 12 |};
    {| entry_hash := x23; entry_oid := 8 |};
    {| entry_hash := x3c; entry_oid := 6 |};
    {| entry_hash := x4d; entry_oid := 2 |};
    {| entry_hash := x53; entry_oid := 15 |};
    {| entry_hash := x57; entry_oid := 14 |};
    {| entry_hash := x8e; entry_oid := 0 |};
    {| entry_hash := x8e; entry_oid := 11 |};
    {| entry_hash := x96; entry_oid := 5 |};
    {| entry_hash := x96; entry_oid := 1 |};
    {| entry_hash := x9d; entry_oid := 17 |};
    {| entry_hash := xb2; entry_oid := 16 |};
    {| entry_hash := xcc; entry_oid := 9 |};
    {| entry_hash := xd0; entry_oid := 3 |};
    {| entry_hash := xdc; entry_oid := 13 |};
    {| entry_hash := xe2; entry_oid := 7 |};
    {| entry_hash := xed; entry_oid := 10 |};
    {| entry_hash := xf7; entry_oid := 4 |};
    {| entry_hash := xfc; entry_oid := 18 |} ].

Definition sample_index : list Z :=
  [ 0; 7; 15; 22; 30; 38; 46; 55; 64; 73; 82; 91; 100; 109; 117; 122; 131; 140; 149; 158 ].

Definition sample_data : list byte :=
  [
    (*  0 id_ecPublicKey, 1.2.840.10045.2.1 *)
    x2a; x86; x48; xce; x3d; x02; x01;
    (*  1 id_prime256v1, 1.2.840.10045.3.1.7 *)
    x2a; x86; x48; xce; x3d; x03; x01; x07;
    (*  2 id_ecdsa_with_sha1, 1.2.840.10045.4.1 *)
    x2a; x86; x48; xce; x3d; x04; x01;
    (*  3 id_ecdsa_with_sha256, 1.2.840.10045.4.3.2 *)
    x2a; x86; x48; xce; x3d; x04; x03; x02;
    (*  4 id_ecdsa_with_sha384, 1.2.840.10045.4.3.3 *)
    x2a; x86; x48; xce; x3d; x04; x03; x03;
    (*  5 id_ecdsa_with_sha512, 1.2.840.10045.4.3.4 *)
    x2a; x86; x48; xce; x3d; x04; x03; x04;
    (*  6 md4WithRSAEncryption, 1.2.840.113549.1.1.3 *)
    x2a; x86; x48; x86; xf7; x0d; x01; x01; x03;
    (*  7 sha1WithRSAEncryption, 1.2.840.113549.1.1.5 *)
    x2a; x86; x48; x86; xf7; x0d; x01; x01; x05;
    (*  8 sha256WithRSAEncryption, 1.2.840.113549.1.1.11 *)
    x2a; x86; x48; x86; xf7; x0d; x01; x01; x0b;
    (*  9 sha384WithRSAEncryption, 1.2.840.113549.1.1.12 *)
    x2a; x86; x48; x86; xf7; x0d; x01; x01; x0c;
    (* 10 sha512WithRSAEncryption, 1.2.840.113549.1.1.13 *)
    x2a; x86; x48; x86; xf7; x0d; x01; x01; x0d;
    (* 11 sha224WithRSAEncryption, 1.2.840.113549.1.1.14 *)
    x2a; x86; x48; x86; xf7; x0d; x01; x01; x0e;
    (* 12 contentType, 1.2.840.113549.1.9.3 *)
    x2a; x86; x48; x86; xf7; x0d; x01; x09; x03;
    (* 13 md4, 1.2.840.113549.2.4 *)
    x2a; x86; x48; x86; xf7; x0d; x02; x04;
    (* 14 sha1, 1.3.14.3.2.26 *)
    x2b; x0e; x03; x02; x1a;
    (* 15 sha256, 2.16.840.1.101.3.4.2.1 *)
    x60; x86; x48; x01; x65; x03; x04; x02; x01;
    (* 16 sha384, 2.16.840.1.101.3.4.2.2 *)
    x60; x86; x48; x01; x65; x03; x04; x02; x02;
    (* 17 sha512, 2.16.840.1.101.3.4.2.3 *)
    x60; x86; x48; x01; x65; x03; x04; x02; x03;
    (* 18 sha224, 2.16.840.1.101.3.4.2.4 *)
    x60; x86; x48; x01; x65; x03; x04; x02; x04 ].

Definition sample : registry :=
  {| OID__NR := 19;
     oid_search_table := sample_search_table;
     oid_index := sample_index;
     oid_data := sample_data |}.

Definition sample_enum : oid_enum :=
  {| OID_id_ecdsa_with_sha1 := 2;
     OID_id_ecdsa_with_sha256 := 3;
     OID_id_ecdsa_with_sha384 := 4;
     OID_id_ecdsa_with_sha512 := 5;
     OID_md4WithRSAEncryption := 6;
     OID_sha1WithRSAEncryption := 7;
     OID_sha256WithRSAEncryption := 8;
     OID_sha384WithRSAEncryption := 9;
     OID_sha512WithRSAEncryption := 10;
     OID_sha224WithRSAEncryption := 11;
     OID_md4 := 13;
     OID_sha1 := 14;
     OID_sha256 := 15;
     OID_sha384 := 16;
     OID_sha512 := 17;
     OID_sha224 := 18 |}.

End Sample.

(** * Proofs *)

(** ** Machine integers and table reads *)

Lemma u8_range (b : byte) : 0 <= u8 b < 256.
Proof.
  unfold u8. pose proof (Byte.to_N_bounded b) as Hb. lia.
Qed.

Lemma u8_inj (a b : byte) : u8 a = u8 b -> a = b.
Proof.
  unfold u8. intros H. apply N2Z.inj in H.
  pose proof (Byte.of_to_N a) as Ha. pose proof (Byte.of_to_N b) as Hb.
  rewrite H in Ha. congruence.
Qed.

Lemma u32_small (z : Z) : 0 <= z < 2 ^ 32 -> u32 z = z.
Proof. apply Z.mod_small. Qed.

Lemma u64_small (z : Z) : 0 <= z < 2 ^ 64 -> u64 z = z.
Proof. apply Z.mod_small. Qed.

Lemma to_int_small (z : Z) : - 2 ^ 31 <= z < 2 ^ 31 -> to_int z = z.
Proof. intros H. unfold to_int. rewrite Z.mod_small; lia. Qed.

Lemma at_index_Ok {A : Type} (l : list A) (i : Z) (a : A) :
  at_index l i = Ok a <-> 0 <= i /\ nth_error l (Z.to_nat i) = Some a.
Proof.
  unfold at_index. destruct (Z.ltb_spec i 0).
  - split; [discriminate | lia].
  - destruct (nth_error l (Z.to_nat i)); split; intros H0;
      try discriminate; try (destruct H0; discriminate).
    + inversion H0. auto.
    + destruct H0 as [_ H0]. inversion H0. reflexivity.
Qed.


(** ** The hash *)

Lemma hash_loop_sum (octets : list byte) (x : Z) :
  fold_left hash_step octets (u32 x) = u32 (x + weighted_sum octets).
Proof.
  revert x. induction octets as [|b octets IH]; intros x; simpl.
  - rewrite Z.add_0_r. reflexivity.
  - change (hash_step (u32 x) b) with (u32 (u32 x + u8 b * 33)).
    rewrite IH. unfold u32, wrap.
    rewrite <- Z.add_assoc, Zplus_mod_idemp_l. reflexivity.
Qed.

Lemma low_byte (h : Z) : Z.land h 255 = h mod 256.
Proof. change 255 with (Z.ones 8). rewrite Z.land_ones by lia. reflexivity. Qed.

Lemma shifted_byte (h n : Z) :
  0 <= n -> Z.land (Z.shiftr h (8 * n)) 255 = lane h n.
Proof.
  intros Hn. rewrite low_byte. unfold lane.
  rewrite Z.shiftr_div_pow2 by lia. reflexivity.
Qed.

Lemma land_lxor (a b c : Z) :
  Z.land (Z.lxor a b) c = Z.lxor (Z.land a c) (Z.land b c).
Proof.
  apply Z.bits_inj'. intros n Hn.
  rewrite Z.land_spec, !Z.lxor_spec, !Z.land_spec.
  destruct (Z.testbit a n), (Z.testbit b n), (Z.testbit c n); reflexivity.
Qed.

Lemma hash_fold_lanes (h : Z) :
  Z.land (hash_fold h) 255 =
  Z.lxor (Z.lxor (Z.lxor (lane h 3) (lane h 2)) (lane h 1)) (lane h 0).
Proof.
  unfold hash_fold.
  rewrite !land_lxor.
  rewrite <- (shifted_byte h 3), <- (shifted_byte h 2),
          <- (shifted_byte h 1), <- (shifted_byte h 0) by lia.
  reflexivity.
Qed.

Lemma oid_hash_range (octets : list byte) : 0 <= oid_hash octets < 256.
Proof.
  unfold oid_hash. rewrite low_byte. apply Z.mod_pos_bound. reflexivity.
Qed.

(** C3: for every input byte sequence the hash that [look_up_OID]
    computes (a 32-bit accumulator seeded with [datasize - 1], updated by
    [hash += octet * 33] with wrap-around, folded by
    [(h >> 24) ^ (h >> 16) ^ (h >> 8) ^ h] and masked with [0xff]) is one
    byte and equals the reference definition of the specification. *)
Theorem oid_hash_reference (octets : list byte) :
  oid_hash octets = reference_hash octets /\ 0 <= oid_hash octets < 256.
Proof.
  split; [|apply oid_hash_range].
  unfold oid_hash, reference_hash.
  rewrite hash_loop_sum, hash_fold_lanes. reflexivity.
Qed.

(** ** The hash loop and its counter *)

Lemma skipn_cons_nth {A : Type} (l : list A) (n : nat) (x : A) :
  nth_error l n = Some x -> skipn n l = x :: skipn (S n) l.
Proof.
  revert n. induction l as [|y l IH]; intros [|n] H; cbn in *;
    try discriminate.
  - inversion H. reflexivity.
  - apply IH. exact H.
Qed.

(** With fewer than 2^32 octets the counter reaches [datasize] and the
    loop exits, having taken the octets from [i] on in order. *)
Lemma hash_loop_exits (octets : list byte) (budget : nat) :
  forall i hash,
    Z.of_nat (List.length octets) < 2 ^ 32 ->
    0 <= i <= Z.of_nat (List.length octets) ->
    Z.of_nat (List.length octets) - i <= Z.of_nat budget ->
    hash_loop octets budget i hash =
    Ok (fold_left hash_step (skipn (Z.to_nat i) octets) hash).
Proof.
  induction budget as [|budget IH]; intros i hash Hsize Hi Hb.
  - cbn [hash_loop]. destruct (Z.ltb_spec i (Z.of_nat (List.length octets)));
      [lia|].
    rewrite skipn_all2 by lia. reflexivity.
  - cbn [hash_loop]. destruct (Z.ltb_spec i (Z.of_nat (List.length octets))).
    + destruct (nth_error octets (Z.to_nat i)) as [octet|] eqn:E;
        [|apply nth_error_None in E; lia].
      assert (Hread : at_index octets i = Ok octet)
        by (apply at_index_Ok; split; [lia | exact E]).
      rewrite Hread. cbn [bind]. rewrite u32_small by lia.
      rewrite IH by lia.
      rewrite (skipn_cons_nth _ _ _ E). cbn [fold_left].
      replace (Z.to_nat (i + 1)) with (S (Z.to_nat i)) by lia.
      reflexivity.
    + rewrite skipn_all2 by lia. reflexivity.
Qed.

(** With 2^32 octets or more the counter wraps before it reaches
    [datasize]: the loop does not exit, whatever the budget. *)
Lemma hash_loop_never_exits (octets : list byte) (budget : nat) :
  forall i hash,
    2 ^ 32 <= Z.of_nat (List.length octets) ->
    0 <= i < 2 ^ 32 ->
    hash_loop octets budget i hash = Diverge.
Proof.
  induction budget as [|budget IH]; intros i hash Hsize Hi;
    cbn [hash_loop];
    destruct (Z.ltb_spec i (Z.of_nat (List.length octets))); try lia;
    [reflexivity|].
  destruct (nth_error octets (Z.to_nat i)) as [octet|] eqn:E;
    [|apply nth_error_None in E; lia].
  assert (Hread : at_index octets i = Ok octet)
    by (apply at_index_Ok; split; [lia | exact E]).
  rewrite Hread. cbn [bind]. apply IH; [exact Hsize|].
  apply Z.mod_pos_bound. reflexivity.
Qed.

Lemma hash_octets_value (octets : list byte) :
  Z.of_nat (List.length octets) < 2 ^ 32 ->
  hash_octets octets = Ok (oid_hash octets).
Proof.
  intros Hsize. unfold hash_octets.
  rewrite hash_loop_exits by lia. reflexivity.
Qed.

Lemma hash_octets_diverges (octets : list byte) :
  2 ^ 32 <= Z.of_nat (List.length octets) ->
  hash_octets octets = Diverge.
Proof.
  intros Hsize. unfold hash_octets.
  rewrite hash_loop_never_exits by (auto; lia). reflexivity.
Qed.

Lemma look_up_OID_counted_eq (R : registry) (octets : list byte) :
  Z.of_nat (List.length octets) < 2 ^ 32 ->
  look_up_OID_counted R octets = look_up_OID R octets.
Proof.
  intros Hsize. unfold look_up_OID_counted, look_up_OID.
  rewrite hash_octets_value by exact Hsize. reflexivity.
Qed.

Lemma look_up_OID_counted_diverges (R : registry) (octets : list byte) :
  2 ^ 32 <= Z.of_nat (List.length octets) ->
  look_up_OID_counted R octets = Diverge.
Proof.
  intros Hsize. unfold look_up_OID_counted.
  rewrite hash_octets_diverges by exact Hsize. reflexivity.
Qed.

(** ** The sort key *)

Lemma lex_compare_refl (a : list byte) : lex_compare a a = Eq.
Proof.
  induction a as [|x a IH]; simpl; [reflexivity|].
  rewrite Z.compare_refl. exact IH.
Qed.

Lemma lex_compare_eq (a b : list byte) : lex_compare a b = Eq -> a = b.
Proof.
  revert b. induction a as [|x a IH]; intros [|y b]; simpl;
    try discriminate; [reflexivity|].
  destruct (Z.compare_spec (u8 x) (u8 y)) as [E| |]; try discriminate.
  intros H. apply u8_inj in E. f_equal; auto.
Qed.

Lemma lex_compare_trans (a b c : list byte) :
  lex_compare a b = Lt -> lex_compare b c = Lt -> lex_compare a c = Lt.
Proof.
  revert b c. induction a as [|x a IH]; intros [|y b] [|z c]; simpl;
    try discriminate; try reflexivity.
  destruct (Z.compare_spec (u8 x) (u8 y)) as [E1|L1|G1]; try discriminate;
    destruct (Z.compare_spec (u8 y) (u8 z)) as [E2|L2|G2]; try discriminate;
    intros H1 H2.
  - rewrite E1, E2, Z.compare_refl. eauto.
  - rewrite E1. apply Z.compare_lt_iff in L2. rewrite L2. reflexivity.
  - rewrite <- E2. apply Z.compare_lt_iff in L1. rewrite L1. reflexivity.
  - assert (L : u8 x < u8 z) by lia.
    apply Z.compare_lt_iff in L. rewrite L. reflexivity.
Qed.

Lemma key_compare_refl (h : Z) (b : list byte) : key_compare h b h b = Eq.
Proof.
  unfold key_compare. rewrite !Z.compare_refl. apply lex_compare_refl.
Qed.

Lemma key_compare_eq (h1 : Z) (b1 : list byte) (h2 : Z) (b2 : list byte) :
  key_compare h1 b1 h2 b2 = Eq -> h1 = h2 /\ b1 = b2.
Proof.
  unfold key_compare.
  destruct (Z.compare_spec h1 h2); try discriminate.
  destruct (Z.compare_spec (Z.of_nat (List.length b1)) (Z.of_nat (List.length b2)));
    try discriminate.
  intros H1. apply lex_compare_eq in H1. split; [assumption|].
  rewrite <- (rev_involutive b1), <- (rev_involutive b2). congruence.
Qed.

Lemma key_compare_trans (h1 h2 h3 : Z) (b1 b2 b3 : list byte) :
  key_compare h1 b1 h2 b2 = Lt -> key_compare h2 b2 h3 b3 = Lt ->
  key_compare h1 b1 h3 b3 = Lt.
Proof.
  unfold key_compare.
  destruct (Z.compare_spec h1 h2) as [E1|L1|G1]; try discriminate;
    destruct (Z.compare_spec h2 h3) as [E2|L2|G2]; try discriminate;
    try (intros _ _; assert (L : h1 < h3) by lia;
         apply Z.compare_lt_iff in L; rewrite L; reflexivity).
  subst h2 h3. rewrite Z.compare_refl.
  set (l1 := Z.of_nat (List.length b1)). set (l2 := Z.of_nat (List.length b2)).
  set (l3 := Z.of_nat (List.length b3)).
  destruct (Z.compare_spec l1 l2) as [E1|L1|G1]; try discriminate;
    destruct (Z.compare_spec l2 l3) as [E2|L2|G2]; try discriminate;
    try (intros _ _; assert (L : l1 < l3) by lia;
         apply Z.compare_lt_iff in L; rewrite L; reflexivity).
  rewrite E1, E2, Z.compare_refl. apply lex_compare_trans.
Qed.

Lemma lex_compare_antisym (a b : list byte) :
  lex_compare b a = CompOpp (lex_compare a b).
Proof.
  revert b. induction a as [|x a IH]; intros [|y b]; simpl; try reflexivity.
  rewrite (Z.compare_antisym (u8 x) (u8 y)).
  destruct (u8 x ?= u8 y); simpl; auto.
Qed.

Lemma key_compare_antisym (h1 : Z) (b1 : list byte) (h2 : Z) (b2 : list byte) :
  key_compare h2 b2 h1 b1 = CompOpp (key_compare h1 b1 h2 b2).
Proof.
  unfold key_compare.
  rewrite (Z.compare_antisym h1 h2).
  destruct (h1 ?= h2); simpl; try reflexivity.
  rewrite (Z.compare_antisym (Z.of_nat (List.length b1))).
  destruct (Z.of_nat (List.length b1) ?= _); simpl; try reflexivity.
  apply lex_compare_antisym.
Qed.

Lemma strongly_sorted_nth {A : Type} (P : A -> A -> Prop) (l : list A) :
  StronglySorted P l ->
  forall (a b : nat) (x y : A),
    nth_error l a = Some x -> nth_error l b = Some y -> (a < b)%nat -> P x y.
Proof.
  induction 1 as [|z l Hs IH Hall]; intros a b x y Ha Hb Hab.
  - destruct a; discriminate.
  - destruct b as [|b]; [lia|]. simpl in Hb.
    destruct a as [|a]; simpl in Ha.
    + inversion Ha; subst z. rewrite Forall_forall in Hall.
      apply Hall. eapply nth_error_In; eassumption.
    + eapply IH; eauto. lia.
Qed.

(** ** Reading the tables of a well-shaped registry *)

Section Tables.

Variable R : registry.
Hypothesis shape : registry_shape R.

Let N := OID__NR R.

Lemma read_index (s : Z) :
  0 <= s <= N -> at_index (oid_index R) s = Ok (offset R s).
Proof.
  intros Hs. apply at_index_Ok. split; [lia|].
  unfold offset. apply nth_error_nth'.
  pose proof (index_size R shape). fold N in H. lia.
Qed.

Lemma read_search_table (j : Z) :
  0 <= j < N ->
  exists e, at_index (oid_search_table R) j = Ok e /\
            nth_error (oid_search_table R) (Z.to_nat j) = Some e /\
            In e (oid_search_table R).
Proof.
  intros Hj. pose proof (search_table_size R shape) as Hsz. fold N in Hsz.
  destruct (nth_error (oid_search_table R) (Z.to_nat j)) as [e|] eqn:E.
  - exists e. split; [|split]; auto.
    + apply at_index_Ok. split; [lia | assumption].
    + eapply nth_error_In; eassumption.
  - apply nth_error_None in E. lia.
Qed.

Lemma offset_monotone (s : Z) (n : nat) :
  0 <= s < N -> s + Z.of_nat n <= N ->
  0 <= offset R s <= offset R (s + Z.of_nat n).
Proof.
  intros Hs. induction n as [|n IH]; intros Hn.
  - rewrite Z.add_0_r.
    pose proof (index_ascending R shape s) as H. fold N in H. lia.
  - rewrite Nat2Z.inj_succ in *.
    pose proof (index_ascending R shape (s + Z.of_nat n)) as H. fold N in H.
    replace (s + Z.succ (Z.of_nat n)) with (s + Z.of_nat n + 1) by lia.
    lia.
Qed.

(** The Blob range of a symbol lies inside the Blob. *)
Lemma range_within_blob (s : Z) :
  0 <= s < N ->
  0 <= offset R s <= offset R (s + 1) /\
  offset R (s + 1) <= Z.of_nat (List.length (oid_data R)).
Proof.
  intros Hs. split.
  - pose proof (index_ascending R shape s) as H. fold N in H. lia.
  - pose proof (offset_monotone (s + 1) (Z.to_nat (N - (s + 1)))) as H.
    pose proof (index_within_blob R shape) as Hb. fold N in Hb.
    destruct (Z.eq_dec (s + 1) N) as [E|E].
    + rewrite E. lia.
    + replace (s + 1 + Z.of_nat (Z.to_nat (N - (s + 1)))) with N in H by lia.
      lia.
Qed.

Lemma canonical_length (s : Z) :
  0 <= s < N ->
  Z.of_nat (List.length (canonical_bytes R s)) = offset R (s + 1) - offset R s.
Proof.
  intros Hs. destruct (range_within_blob s Hs) as [H1 H2].
  unfold canonical_bytes. rewrite length_firstn, length_skipn. lia.
Qed.

Lemma canonical_nth (s : Z) (m : nat) :
  0 <= s < N ->
  (m < List.length (canonical_bytes R s))%nat ->
  nth_error (canonical_bytes R s) m =
  nth_error (oid_data R) (Z.to_nat (offset R s + Z.of_nat m)).
Proof.
  intros Hs Hm. destruct (range_within_blob s Hs) as [H1 H2].
  pose proof (canonical_length s Hs) as Hl.
  unfold canonical_bytes.
  rewrite nth_error_firstn.
  destruct (Nat.ltb_spec m (Z.to_nat (offset R (s + 1) - offset R s)));
    [|lia].
  rewrite nth_error_skipn. f_equal. lia.
Qed.

Lemma firstn_snoc {A : Type} (l : list A) (n : nat) (x : A) :
  nth_error l n = Some x -> firstn (S n) l = firstn n l ++ [x].
Proof.
  revert n. induction l as [|y l IH]; intros [|n] H; simpl in *;
    try discriminate.
  - inversion H. reflexivity.
  - f_equal. auto.
Qed.

(** The inner loop compares the last [n] positions it is asked about,
    from position [n - 1] down to position 0. *)
Lemma compare_reverse_spec (octets : list byte) (s : Z) (n : nat) :
  0 <= s < N ->
  List.length octets = List.length (canonical_bytes R s) ->
  (n <= List.length octets)%nat ->
  compare_reverse R octets s n =
  Ok (verdict_of (lex_compare (rev (firstn n (canonical_bytes R s)))
                              (rev (firstn n octets)))).
Proof.
  intros Hs Hlen. induction n as [|n IH]; intros Hn; [reflexivity|].
  destruct (range_within_blob s Hs) as [H1 H2].
  pose proof (canonical_length s Hs) as Hl.
  pose proof (index_within_blob R shape) as Hb.
  cbn [compare_reverse].
  rewrite read_index by lia. cbn [bind].
  rewrite u64_small by lia.
  destruct (nth_error (canonical_bytes R s) n) as [a|] eqn:Ea;
    [|apply nth_error_None in Ea; lia].
  destruct (nth_error octets n) as [b|] eqn:Eb;
    [|apply nth_error_None in Eb; lia].
  assert (Ra : at_index (oid_data R) (offset R s + Z.of_nat n) = Ok a).
  { apply at_index_Ok. split; [lia|].
    rewrite <- canonical_nth by (auto; lia). exact Ea. }
  assert (Rb : at_index octets (Z.of_nat n) = Ok b).
  { apply at_index_Ok. split; [lia|]. rewrite Nat2Z.id. exact Eb. }
  rewrite Ra, Rb. cbn [bind].
  rewrite (firstn_snoc _ _ _ Ea), (firstn_snoc _ _ _ Eb), !rev_unit.
  cbn [lex_compare].
  destruct (Z.compare_spec (u8 a) (u8 b)) as [E|L|G].
  - destruct (Z.gtb_spec (u8 a) (u8 b)); [lia|].
    destruct (Z.ltb_spec (u8 a) (u8 b)); [lia|].
    apply IH. lia.
  - destruct (Z.gtb_spec (u8 a) (u8 b)); [lia|].
    destruct (Z.ltb_spec (u8 a) (u8 b)); [|lia]. reflexivity.
  - destruct (Z.gtb_spec (u8 a) (u8 b)); [|lia]. reflexivity.
Qed.

(** One iteration of the binary search: the candidate at the midpoint is
    compared with the input by the triple key, and the interval is
    narrowed or the candidate returned accordingly. *)
Lemma search_step (octets : list byte) (hash : Z) (budget : nat)
    (i k : Z) (e : search_entry) :
  0 <= i < k -> k <= N ->
  nth_error (oid_search_table R) (Z.to_nat ((i + k) / 2)) = Some e ->
  search_loop R octets hash (S budget) i k =
  match key_compare (u8 (entry_hash e)) (canonical_bytes R (entry_oid e))
                    hash octets with
  | Gt => search_loop R octets hash budget i ((i + k) / 2)
  | Lt => search_loop R octets hash budget ((i + k) / 2 + 1) k
  | Eq => Ok (entry_oid e)
  end.
Proof.
  intros Hik Hk He.
  pose proof (nr_range R shape) as Hr. fold N in Hr.
  assert (Hj : i <= (i + k) / 2 < k).
  { split; [apply Z.div_le_lower_bound | apply Z.div_lt_upper_bound]; lia. }
  assert (Hin : In e (oid_search_table R)) by (eapply nth_error_In; eassumption).
  pose proof (search_table_symbols R shape e Hin) as Hs. fold N in Hs.
  destruct (range_within_blob _ Hs) as [H1 H2].
  pose proof (index_within_blob R shape) as Hb.
  pose proof (canonical_length _ Hs) as Hl.
  cbn [search_loop].
  destruct (Z.ltb_spec i k); [|lia].
  rewrite (u32_small (i + k)) by lia.
  rewrite (u32_small ((i + k) / 2 + 1)) by lia.
  assert (Re : at_index (oid_search_table R) ((i + k) / 2) = Ok e).
  { apply at_index_Ok. split; [lia | exact He]. }
  rewrite Re. cbn [bind]. unfold key_compare.
  destruct (Z.compare_spec (u8 (entry_hash e)) hash) as [E|L|G].
  - destruct (Z.gtb_spec (u8 (entry_hash e)) hash); [lia|].
    destruct (Z.ltb_spec (u8 (entry_hash e)) hash); [lia|].
    rewrite !read_index by lia. cbn [bind].
    rewrite u64_small by lia. rewrite Hl.
    set (len := offset R (entry_oid e + 1) - offset R (entry_oid e)) in *.
    set (datasize := Z.of_nat (List.length octets)).
    destruct (Z.compare_spec len datasize) as [E'|L'|G'].
    + destruct (Z.gtb_spec len datasize); [lia|].
      destruct (Z.ltb_spec len datasize); [lia|].
      assert (Hlen : List.length octets = List.length (canonical_bytes R (entry_oid e)))
        by (subst datasize; lia).
      rewrite (compare_reverse_spec octets _ _ Hs Hlen) by lia.
      cbn [bind].
      replace (Z.to_nat len) with (List.length octets) by (subst datasize; lia).
      rewrite firstn_all. rewrite Hlen at 1. rewrite firstn_all.
      destruct (lex_compare _ _); reflexivity.
    + destruct (Z.gtb_spec len datasize); [lia|].
      destruct (Z.ltb_spec len datasize); [|lia]. reflexivity.
    + destruct (Z.gtb_spec len datasize); [|lia]. reflexivity.
  - destruct (Z.gtb_spec (u8 (entry_hash e)) hash); [lia|].
    destruct (Z.ltb_spec (u8 (entry_hash e)) hash); [|lia]. reflexivity.
  - destruct (Z.gtb_spec (u8 (entry_hash e)) hash); [|lia]. reflexivity.
Qed.

(** Whatever the order of the table, the search ends, and it ends with
    [OID__NR] or with a symbol of the table whose key equals the
    input's. *)
Lemma search_result (octets : list byte) (hash : Z) (budget : nat) :
  forall i k, 0 <= i -> k <= N -> k - i <= Z.of_nat budget ->
  search_loop R octets hash budget i k = Ok N \/
  exists e, In e (oid_search_table R) /\
    key_compare (u8 (entry_hash e)) (canonical_bytes R (entry_oid e))
                hash octets = Eq /\
    search_loop R octets hash budget i k = Ok (entry_oid e).
Proof.
  induction budget as [|budget IH]; intros i k Hi Hk Hb.
  - left. cbn [search_loop]. destruct (Z.ltb_spec i k); [lia | reflexivity].
  - destruct (Z_lt_ge_dec i k) as [Hlt|Hge].
    + assert (Hj : i <= (i + k) / 2 < k).
      { split; [apply Z.div_le_lower_bound | apply Z.div_lt_upper_bound]; lia. }
      destruct (read_search_table ((i + k) / 2)) as (e & _ & He & Hin); [lia|].
      rewrite (search_step octets hash budget i k e) by (auto; lia).
      destruct (key_compare _ _ hash octets) eqn:Ek.
      * right. exists e. auto.
      * apply IH; lia.
      * apply IH; lia.
    + left. cbn [search_loop]. destruct (Z.ltb_spec i k); [lia | reflexivity].
Qed.

(** In a sorted table the search keeps the position of an entry whose
    key equals the input's inside [[i, k)], and returns its symbol. *)
Lemma search_finds (octets : list byte) (hash : Z) (p : nat)
    (target : search_entry) :
  StronglySorted (entry_lt R) (oid_search_table R) ->
  nth_error (oid_search_table R) p = Some target ->
  key_compare (u8 (entry_hash target)) (canonical_bytes R (entry_oid target))
              hash octets = Eq ->
  forall budget i k,
    0 <= i <= Z.of_nat p -> Z.of_nat p < k -> k <= N ->
    k - i <= Z.of_nat budget ->
    search_loop R octets hash budget i k = Ok (entry_oid target).
Proof.
  intros Hsorted Hp Hkey.
  destruct (key_compare_eq _ _ _ _ Hkey) as [Hh Hb].
  induction budget as [|budget IH]; intros i k Hi Hpk Hk Hbud; [lia|].
  assert (Hj : i <= (i + k) / 2 < k).
  { split; [apply Z.div_le_lower_bound | apply Z.div_lt_upper_bound]; lia. }
  destruct (read_search_table ((i + k) / 2)) as (e & _ & He & Hin); [lia|].
  rewrite (search_step octets hash budget i k e) by (auto; lia).
  destruct (Z.compare_spec ((i + k) / 2) (Z.of_nat p)) as [E|L|G].
  - rewrite E, Nat2Z.id, Hp in He. inversion He; subst e.
    rewrite Hkey. reflexivity.
  - assert (Hlt : entry_lt R e target).
    { eapply (strongly_sorted_nth _ _ Hsorted); eauto. lia. }
    unfold entry_lt, entry_compare in Hlt. rewrite Hh, Hb in Hlt.
    rewrite Hlt. apply IH; lia.
  - assert (Hlt : entry_lt R target e).
    { eapply (strongly_sorted_nth _ _ Hsorted); eauto. lia. }
    unfold entry_lt, entry_compare in Hlt. rewrite Hh, Hb in Hlt.
    rewrite key_compare_antisym, Hlt. cbn [CompOpp]. apply IH; lia.
Qed.

Lemma entry_lt_transitive : Relations_1.Transitive (entry_lt R).
Proof.
  intros x y z. unfold entry_lt, entry_compare. apply key_compare_trans.
Qed.

Lemma sorted_symbols_distinct (l : list search_entry) :
  StronglySorted (entry_lt R) l ->
  (forall e, In e l ->
     u8 (entry_hash e) = oid_hash (canonical_bytes R (entry_oid e))) ->
  NoDup (map entry_oid l).
Proof.
  induction 1 as [|a l Hs IH Hall]; intros Hagree; simpl; constructor.
  - intros Hin. apply in_map_iff in Hin. destruct Hin as (e & Eo & Hin).
    rewrite Forall_forall in Hall. specialize (Hall e Hin).
    unfold entry_lt, entry_compare in Hall.
    rewrite (Hagree a), (Hagree e), Eo, key_compare_refl in Hall
      by (simpl; auto).
    discriminate.
  - apply IH. intros e He. apply Hagree. right. exact He.
Qed.

(** A sorted search index of [OID__NR] entries lists every symbol. *)
Lemma every_symbol_listed (s : Z) :
  triple_sorted R -> hash_bytes_agree R -> 0 <= s < N ->
  exists p e, nth_error (oid_search_table R) p = Some e /\ entry_oid e = s.
Proof.
  intros Hsorted Hagree Hs.
  apply (Sorted_StronglySorted entry_lt_transitive) in Hsorted.
  pose proof (sorted_symbols_distinct _ Hsorted Hagree) as Hnd.
  pose proof (search_table_size R shape) as Hsz. fold N in Hsz.
  assert (Hincl : incl (map Z.of_nat (seq 0 (Z.to_nat N)))
                       (map entry_oid (oid_search_table R))).
  { apply NoDup_length_incl; [exact Hnd | |].
    - rewrite !length_map, length_seq. lia.
    - intros o Ho. apply in_map_iff in Ho. destruct Ho as (e & <- & Hin).
      pose proof (search_table_symbols R shape e Hin) as Hr. fold N in Hr.
      apply in_map_iff. exists (Z.to_nat (entry_oid e)).
      split; [lia|]. apply in_seq. lia. }
  assert (Hin : In s (map entry_oid (oid_search_table R))).
  { apply Hincl. apply in_map_iff. exists (Z.to_nat s).
    split; [lia|]. apply in_seq. lia. }
  apply in_map_iff in Hin. destruct Hin as (e & Eo & Hin).
  apply In_nth_error in Hin. destruct Hin as (p & Hp).
  exists p, e. auto.
Qed.

End Tables.

(** ** The resolver *)

(** C1: in a registry whose search index is in ascending triple order
    (hash byte, then canonical length, then the bytes from the last one
    backward), [look_up_OID] applied to the canonical bytes of a symbol
    [s] in [[0, OID__NR)] returns [s]. *)
Theorem look_up_OID_canonical (R : registry) (s : Z) :
  registry_shape R -> hash_bytes_agree R -> triple_sorted R ->
  0 <= s < OID__NR R ->
  look_up_OID R (canonical_bytes R s) = Ok s.
Proof.
  intros shape Hagree Hsorted Hs.
  destruct (every_symbol_listed R shape s Hsorted Hagree Hs)
    as (p & e & Hp & He).
  pose proof (nr_range R shape) as Hr.
  pose proof (search_table_size R shape) as Hsz.
  assert (Hlt : (p < List.length (oid_search_table R))%nat).
  { apply nth_error_Some. congruence. }
  unfold look_up_OID. rewrite u32_small by lia. rewrite <- He.
  apply (search_finds R shape _ _ p e).
  - apply Sorted_StronglySorted; [apply entry_lt_transitive | exact Hsorted].
  - exact Hp.
  - rewrite (Hagree e) by (eapply nth_error_In; eassumption).
    apply key_compare_refl.
  - lia.
  - lia.
  - lia.
  - lia.
Qed.


(** ** The sample registry is a registry *)

Lemma each_symbol (n : nat) (P : Z -> Prop) :
  (forall m, (m < n)%nat -> P (Z.of_nat m)) ->
  forall s, 0 <= s < Z.of_nat n -> P s.
Proof.
  intros H s Hs. rewrite <- (Z2Nat.id s) by lia. apply H. lia.
Qed.

Ltac each_case tac :=
  match goal with
  | m : nat |- _ => destruct m; [tac | first [lia | each_case tac]]
  end.

Lemma sample_shape : registry_shape Sample.sample.
Proof.
  constructor.
  - vm_compute. split; [discriminate | reflexivity].
  - reflexivity.
  - reflexivity.
  - apply (each_symbol 19). intros m Hm.
    each_case ltac:(vm_compute; split; discriminate).
  - vm_compute. split; [discriminate | reflexivity].
  - apply Forall_forall.
    repeat constructor; vm_compute; discriminate.
Qed.

Lemma sample_hashes : hash_bytes_agree Sample.sample.
Proof.
  unfold hash_bytes_agree. apply Forall_forall.
  repeat constructor.
Qed.

Lemma sample_sorted : triple_sorted Sample.sample.
Proof.
  unfold triple_sorted. simpl.
  repeat constructor.
Qed.


Lemma look_up_OID_canonical_witness :
  look_up_OID Sample.sample (canonical_bytes Sample.sample 1) = Ok 1.
Proof.
  apply look_up_OID_canonical.
  - exact sample_shape.
  - exact sample_hashes.
  - exact sample_sorted.
  - vm_compute. split; [discriminate | reflexivity].
Defined.


(** The search on the sample, by evaluation: a symbol found after a tie
    on the hash byte and the length, an unknown encoding, the empty
    input. *)
Example look_up_prime256v1 :
  look_up_OID Sample.sample [x2a; x86; x48; xce; x3d; x03; x01; x07] = Ok 1.
Proof. vm_compute. reflexivity. Qed.

Example look_up_commonName :
  look_up_OID Sample.sample [x55; x04; x03] = Ok 19.
Proof. vm_compute. reflexivity. Qed.

Example look_up_empty : look_up_OID Sample.sample [] = Ok 19.
Proof. vm_compute. reflexivity. Qed.

Example look_up_counted_prime256v1 :
  look_up_OID_counted Sample.sample
    [x2a; x86; x48; xce; x3d; x03; x01; x07] = Ok 1.
Proof. vm_compute. reflexivity. Qed.

Example look_up_counted_empty : look_up_OID_counted Sample.sample [] = Ok 19.
Proof. vm_compute. reflexivity. Qed.

(** ** The digest mapping *)

Lemma not_in_cons {A : Type} (x y : A) (l : list A) :
  ~ In x (y :: l) -> y <> x /\ ~ In x l.
Proof. cbn [In]. tauto. Qed.

Ltac split_not_in F :=
  repeat (let D := fresh "D" in
          apply not_in_cons in F; destruct F as [D F]);
  clear F.

Ltac distinct_facts H :=
  unfold enum_distinct, signature_symbols, digest_symbols in H;
  cbn [app] in H;
  repeat (let F := fresh "F" in
          apply NoDup_cons_iff in H; destruct H as [F H]; split_not_in F);
  clear H.

(** The [case] labels are tried from the first to the last. *)
Ltac run_switch :=
  unfold lookup_oid_digest_info;
  repeat match goal with
         | |- context [if (?a =? ?b) || _ then _ else _] =>
             destruct (Z.eqb_spec a b); cbn [orb]
         | |- context [if ?a =? ?b then _ else _] =>
             destruct (Z.eqb_spec a b)
         end.

(** A symbol that is none of the ten [case] labels takes [default]. *)
Lemma digest_info_default (E : oid_enum) (oid : Z) (out : digest_outputs) :
  ~ In oid (signature_symbols E) ->
  lookup_oid_digest_info E oid out = (-1, out).
Proof.
  unfold signature_symbols. cbn [In]. intros Hnot.
  run_switch; try reflexivity; exfalso; apply Hnot; subst oid; tauto.
Qed.

(** C6: [lookup_oid_digest_info] succeeds (returns 0) exactly for the ten
    signature-algorithm symbols; for each it yields, through the output
    parameters that were requested, the digest name, the digest length
    (16, 20, 28, 32, 48 or 64 bytes) and the symbol of the digest itself;
    for every other symbol, the digest symbols such as [OID_sha256] among
    them, it returns -1 and leaves every output parameter as it was. *)
Theorem lookup_oid_digest_info_exact (E : oid_enum) (out : digest_outputs) :
  enum_distinct E ->
  (forall oid name len digest,
      In (oid, (name, len, digest)) (digest_table E) ->
      lookup_oid_digest_info E oid out =
      (0, {| digest_algo := store (digest_algo out) name;
             digest_len := store (digest_len out) len;
             digest_oid := store (digest_oid out) digest |})) /\
  (forall oid,
      fst (lookup_oid_digest_info E oid out) = 0 <->
      In oid (signature_symbols E)) /\
  (forall oid,
      ~ In oid (signature_symbols E) ->
      lookup_oid_digest_info E oid out = (-1, out)) /\
  (forall oid,
      In oid (digest_symbols E) ->
      lookup_oid_digest_info E oid out = (-1, out)).
Proof.
  intros Hd. distinct_facts Hd.
  split; [|split; [|split]].
  - intros oid name len digest Hin.
    unfold digest_table in Hin. cbn [In] in Hin.
    repeat (destruct Hin as [Hin|Hin]; [inversion Hin; subst; clear Hin|]);
      try contradiction;
      run_switch; try reflexivity; congruence.
  - intros oid. split.
    + intros Hret.
      destruct (in_dec Z.eq_dec oid (signature_symbols E)) as [Hin|Hnot];
        [exact Hin|].
      rewrite (digest_info_default E oid out Hnot) in Hret. discriminate.
    + unfold signature_symbols. cbn [In]. intros Hin.
      run_switch; try reflexivity; exfalso; intuition congruence.
  - intros oid. apply digest_info_default.
  - intros oid Hin. apply digest_info_default.
    unfold digest_symbols in Hin. unfold signature_symbols.
    cbn [In] in *. intuition congruence.
Qed.

(** ** Text and [snprintf] *)

Lemma bytes_length (s : string) :
  List.length (list_byte_of_string s) = String.length s.
Proof.
  unfold list_byte_of_string. rewrite length_map.
  induction s as [|c s IH]; simpl; congruence.
Qed.

Lemma bytes_app (s1 s2 : string) :
  list_byte_of_string (s1 ++ s2) =
  list_byte_of_string s1 ++ list_byte_of_string s2.
Proof.
  unfold list_byte_of_string. rewrite <- map_app. f_equal.
  induction s1 as [|c s1 IH]; simpl; congruence.
Qed.

Lemma string_app_length (s1 s2 : string) :
  String.length (s1 ++ s2) = (String.length s1 + String.length s2)%nat.
Proof. induction s1 as [|c s1 IH]; simpl; congruence. Qed.

Lemma string_app_assoc (s1 s2 s3 : string) :
  ((s1 ++ s2) ++ s3 = s1 ++ s2 ++ s3)%string.
Proof. induction s1 as [|c s1 IH]; simpl; congruence. Qed.

Lemma string_app_empty (s : string) : (s ++ "" = s)%string.
Proof. induction s as [|c s IH]; simpl; congruence. Qed.

Lemma snprintf_count (buffer : list byte) (text : string) :
  snd (snprintf buffer text) = Z.of_nat (String.length text).
Proof.
  unfold snprintf. rewrite bytes_length.
  destruct (List.length buffer); reflexivity.
Qed.

(** A text shorter than the region is written whole, with its
    terminator. *)
Lemma snprintf_fits (buffer : list byte) (text : string) :
  (String.length text < List.length buffer)%nat ->
  fst (snprintf buffer text) =
  list_byte_of_string text ++ NUL :: skipn (S (String.length text)) buffer.
Proof.
  intros Hfit. unfold snprintf.
  destruct (List.length buffer) as [|room] eqn:E; [lia|]. cbn [fst].
  rewrite firstn_all2 by (rewrite bytes_length; lia).
  rewrite bytes_length. reflexivity.
Qed.

Lemma bytes_substring (n : nat) (text : string) :
  list_byte_of_string (substring 0 n text) =
  firstn n (list_byte_of_string text).
Proof.
  unfold list_byte_of_string. rewrite firstn_map. f_equal.
  revert n. induction text as [|c text IH]; intros [|n]; simpl;
    try reflexivity.
  f_equal. apply IH.
Qed.

(** A non-empty region holds, after the call, the text truncated to the
    capacity less one. *)
Lemma snprintf_holds (buffer : list byte) (text : string) :
  buffer <> [] ->
  holds (fst (snprintf buffer text))
        (substring 0 (List.length buffer - 1) text).
Proof.
  intros Hne. unfold snprintf, holds.
  destruct buffer as [|x buffer]; [congruence|].
  cbn [List.length fst]. rewrite Nat.sub_succ, Nat.sub_0_r.
  rewrite bytes_substring. eexists. reflexivity.
Qed.

Lemma snprintf_length (buffer : list byte) (text : string) :
  List.length (fst (snprintf buffer text)) = List.length buffer.
Proof.
  unfold snprintf. destruct (List.length buffer) as [|room] eqn:E;
    [exact E|].
  cbn [fst]. rewrite length_app. cbn [List.length].
  rewrite length_skipn, length_firstn.
  pose proof (Nat.le_min_l room (List.length (list_byte_of_string text))).
  lia.
Qed.

(** ** Arcs *)

Lemma high_bit_test (n : byte) : (Z.land (u8 n) 128 =? 0) = (u8 n <? 128).
Proof. destruct n; reflexivity. Qed.

Lemma low_bits (n : byte) : Z.land (u8 n) 127 = u8 n mod 2 ^ 7.
Proof. change 127 with (Z.ones 7). apply Z.land_ones. lia. Qed.

Lemma lor_disjoint (k b : Z) :
  Z.lor (k * 2 ^ 7) (b mod 2 ^ 7) = k * 2 ^ 7 + b mod 2 ^ 7.
Proof.
  assert (H : Z.land (k * 2 ^ 7) (b mod 2 ^ 7) = 0).
  { apply Z.bits_inj'. intros i Hi.
    rewrite Z.land_spec, Z.bits_0.
    destruct (Z_lt_ge_dec i 7).
    - rewrite Z.mul_pow2_bits_low by lia. reflexivity.
    - rewrite Z.mod_pow2_bits_high by lia. apply andb_false_r. }
  rewrite <- Z.lxor_lor by exact H.
  symmetry. apply Z.add_nocarry_lxor. exact H.
Qed.

(** One round of [num <<= 7; num |= n & 0x7f] on the machine word keeps
    the word equal to the base-128 value modulo 2^64. *)
Lemma accumulate (acc : Z) (n : byte) :
  Z.lor (u64 (Z.shiftl (u64 acc) 7)) (Z.land (u8 n) 127) =
  u64 (acc * 128 + u8 n mod 128).
Proof.
  rewrite low_bits, Z.shiftl_mul_pow2 by lia.
  unfold u64, wrap.
  rewrite Zmult_mod_idemp_l.
  change (2 ^ 64) with (2 ^ 57 * 2 ^ 7).
  rewrite Zmult_mod_distr_r, lor_disjoint.
  change 128 with (2 ^ 7).
  pose proof (Z.mod_pos_bound acc (2 ^ 57) eq_refl) as Ha.
  pose proof (Z.mod_pos_bound (u8 n) (2 ^ 7) eq_refl) as Hb.
  rewrite <- (Zplus_mod_idemp_l (acc * 2 ^ 7)).
  rewrite Zmult_mod_distr_r.
  symmetry. apply Z.mod_small. lia.
Qed.

Section Prefix.

(** The octets [v2] that follow the arcs under consideration. *)
Variable v2 : list byte.

Lemma continuation_complete (v1 : list byte) :
  forall (acc : Z) (arcs : list Z),
    later_arcs (Some acc) v1 = Some arcs ->
    exists arc arcs' v1',
      arcs = arc :: arcs' /\
      continuation (u64 acc) (v1 ++ v2) = Some (u64 arc, v1' ++ v2) /\
      later_arcs None v1' = Some arcs' /\
      (List.length v1' < List.length v1)%nat.
Proof.
  induction v1 as [|n v1 IH]; intros acc arcs H; [discriminate|].
  cbn [later_arcs] in H. cbn [app continuation].
  rewrite accumulate, high_bit_test.
  destruct (Z.ltb_spec (u8 n) 128) as [Hlow|Hhigh]; cbn [negb].
  - destruct (later_arcs None v1) as [arcs'|] eqn:E; [|discriminate].
    inversion H; subst arcs.
    exists (acc * 128 + u8 n mod 128), arcs', v1.
    repeat split; auto.
  - destruct (IH _ _ H) as (arc & arcs' & v1' & -> & Hc & Hl & Hlen).
    exists arc, arcs', v1'. repeat split; auto.
    cbn [List.length]. lia.
Qed.

Lemma read_arc_complete (n : byte) (v1 : list byte) (arcs : list Z) :
  later_arcs None (n :: v1) = Some arcs ->
  exists arc arcs' v1',
    arcs = arc :: arcs' /\
    read_arc n (v1 ++ v2) = Some (u64 arc, v1' ++ v2) /\
    later_arcs None v1' = Some arcs' /\
    (List.length v1' <= List.length v1)%nat.
Proof.
  intros H. cbn [later_arcs] in H. unfold read_arc.
  rewrite high_bit_test.
  pose proof (u8_range n) as Hn.
  destruct (Z.ltb_spec (u8 n) 128) as [Hlow|Hhigh].
  - destruct (later_arcs None v1) as [arcs'|] eqn:E; [|discriminate].
    inversion H; subst arcs.
    exists (0 * 128 + u8 n mod 128), arcs', v1.
    repeat split; auto.
    rewrite Z.mul_0_l, Z.add_0_l, Z.mod_small, u64_small by lia.
    reflexivity.
  - destruct (continuation_complete _ _ _ H)
      as (arc & arcs' & v1' & -> & Hc & Hl & Hlen).
    exists arc, arcs', v1'. repeat split; auto; [|lia].
    rewrite low_bits. change (2 ^ 7) with 128.
    rewrite <- Hc. f_equal.
    pose proof (Z.mod_pos_bound (u8 n) 128 eq_refl) as Hm.
    rewrite Z.mul_0_l, Z.add_0_l, u64_small; [reflexivity|lia].
Qed.

End Prefix.

(** A run of continuation octets that reaches the end of the input is
    [goto bad]. *)
Lemma continuation_truncated (t : list byte) (num : Z) :
  Forall continues t -> continuation num t = None.
Proof.
  intros Ht. revert num. induction Ht as [|n t Hn _ IH]; intros num;
    [reflexivity|].
  cbn [continuation]. rewrite high_bit_test.
  unfold continues in Hn.
  destruct (Z.ltb_spec (u8 n) 128); [lia|]. apply IH.
Qed.

Lemma read_arc_truncated (n : byte) (t : list byte) :
  Forall continues (n :: t) -> read_arc n t = None.
Proof.
  intros Ht. inversion Ht as [|? ? Hn Ht']; subst.
  unfold read_arc. rewrite high_bit_test. unfold continues in Hn.
  destruct (Z.ltb_spec (u8 n) 128); [lia|].
  apply continuation_truncated. exact Ht'.
Qed.

(** ** The cursor *)

Lemma firstn_exact {A : Type} (l r : list A) :
  firstn (List.length l) (l ++ r) = l.
Proof. induction l as [|x l IH]; simpl; congruence. Qed.

Lemma skipn_exact {A : Type} (l r : list A) :
  skipn (List.length l) (l ++ r) = r.
Proof. induction l as [|x l IH]; simpl; congruence. Qed.

Lemma print_at_count (c : cursor) (seg : string) :
  snd (print_at c seg) = Z.of_nat (String.length seg).
Proof.
  unfold print_at. pose proof (snprintf_count (ahead c) seg) as H.
  destruct (snprintf (ahead c) seg). exact H.
Qed.

(** A segment that fits: it is written with its terminator, and the
    pointer moves to that terminator. *)
Lemma print_fits (c : cursor) (x : byte) (t : list byte) (seg : string) :
  ahead c = x :: t ->
  (String.length seg <= List.length t)%nat ->
  (snd (print_at c seg) >=? bufsize c) = false /\
  advance (fst (print_at c seg)) (snd (print_at c seg)) =
  {| behind := behind c ++ list_byte_of_string seg;
     ahead := NUL :: skipn (String.length seg) t |}.
Proof.
  intros Ha Hfit. rewrite print_at_count. split.
  - unfold bufsize. rewrite Ha. cbn [List.length].
    destruct (Z.geb_spec (Z.of_nat (String.length seg))
                (Z.of_nat (S (List.length t)))); [lia | reflexivity].
  - unfold print_at.
    pose proof (snprintf_fits (ahead c) seg) as H.
    destruct (snprintf (ahead c) seg) as [region count]. cbn [fst] in *.
    rewrite H by (rewrite Ha; cbn [List.length]; lia).
    unfold advance. cbn [behind ahead]. rewrite Nat2Z.id, Ha.
    rewrite <- (bytes_length seg) at 1 3.
    rewrite firstn_exact, skipn_exact. reflexivity.
Qed.

Lemma print_overflows (c : cursor) (x : byte) (t : list byte) (seg : string) :
  ahead c = x :: t ->
  (List.length t < String.length seg)%nat ->
  (snd (print_at c seg) >=? bufsize c) = true.
Proof.
  intros Ha Hbig. rewrite print_at_count. unfold bufsize. rewrite Ha.
  cbn [List.length].
  destruct (Z.geb_spec (Z.of_nat (String.length seg))
              (Z.of_nat (S (List.length t)))); [reflexivity | lia].
Qed.

Lemma arcs_loop_step (budget : nat) (n : byte) (v v' : list byte)
    (c : cursor) (ret num : Z) :
  read_arc n v = Some (num, v') ->
  arcs_loop (S budget) (n :: v) c ret =
  let seg := ("." ++ decimal num)%string in
  if snd (print_at c seg) >=? bufsize c
  then Ok (- ENOBUFS, contents (fst (print_at c seg)))
  else arcs_loop budget v' (advance (fst (print_at c seg)) (snd (print_at c seg)))
                 (u64 (ret + snd (print_at c seg))).
Proof.
  intros H. cbn [arcs_loop]. rewrite H. cbv zeta.
  destruct (print_at c ("." ++ decimal num)). reflexivity.
Qed.

(** ** The loop over the arcs *)

Lemma later_arcs_nil (v : list byte) :
  later_arcs None v = Some [] -> v = [].
Proof.
  destruct v as [|n v]; [reflexivity|]. intros H.
  destruct (read_arc_complete [] n v [] H) as (? & ? & ? & E & _).
  discriminate.
Qed.

Lemma u64_add_l (a b : Z) : u64 (u64 a + b) = u64 (a + b).
Proof. unfold u64, wrap. apply Zplus_mod_idemp_l. Qed.

(** The loop on complete arcs [v1] followed by any octets [v2]: when the
    text of the arcs fits, the loop writes it and goes on with [v2];
    otherwise it returns [-ENOBUFS], whatever [v2] is. *)
Lemma arcs_loop_prefix (v2 : list byte) (arcs : list Z) :
  forall (v1 : list byte) (budget : nat) (c : cursor) (t : list byte)
         (ret : Z),
    later_arcs None v1 = Some arcs ->
    (List.length v1 + List.length v2 <= budget)%nat ->
    ahead c = NUL :: t ->
    0 <= ret < 2 ^ 64 ->
    let text := later_text (map u64 arcs) in
    ((String.length text <= List.length t)%nat ->
     exists budget',
       (List.length v2 <= budget')%nat /\
       arcs_loop budget (v1 ++ v2) c ret =
       arcs_loop budget' v2
         {| behind := behind c ++ list_byte_of_string text;
            ahead := NUL :: skipn (String.length text) t |}
         (u64 (ret + Z.of_nat (String.length text)))) /\
    ((List.length t < String.length text)%nat ->
     exists b, arcs_loop budget (v1 ++ v2) c ret = Ok (- ENOBUFS, b)).
Proof.
  induction arcs as [|arc arcs IH]; intros v1 budget c t ret Hv Hb Ha Hret;
    cbn [map later_text]; cbv zeta.
  - apply later_arcs_nil in Hv. subst v1. cbn [app List.length] in *.
    split; [|cbn [String.length]; lia].
    intros _. exists budget. split; [lia|].
    cbn [list_byte_of_string String.length skipn].
    rewrite Z.add_0_r, u64_small, app_nil_r by exact Hret.
    rewrite <- Ha. destruct c; reflexivity.
  - destruct v1 as [|n v1]; [discriminate|].
    destruct (read_arc_complete v2 n v1 _ Hv)
      as (arc0 & arcs0 & v1' & E & Hr & Hl & Hlen).
    inversion E; subst arc0 arcs0; clear E.
    destruct budget as [|budget]; [cbn [List.length] in Hb; lia|].
    cbn [app]. rewrite (arcs_loop_step _ _ _ _ _ _ _ Hr). cbv zeta.
    set (seg := ("." ++ decimal (u64 arc))%string).
    set (text := later_text (map u64 arcs)).
    change ("." ++ decimal (u64 arc) ++ text)%string with (seg ++ text)%string.
    rewrite string_app_length.
    destruct (Nat.le_gt_cases (String.length seg) (List.length t))
      as [Hfit|Hbig].
    + destruct (print_fits c NUL t seg Ha Hfit) as [Hno Hadv].
      rewrite Hno, Hadv, print_at_count.
      destruct (IH v1' budget
                  {| behind := behind c ++ list_byte_of_string seg;
                     ahead := NUL :: skipn (String.length seg) t |}
                  (skipn (String.length seg) t)
                  (u64 (ret + Z.of_nat (String.length seg))) Hl)
        as [IHfit IHbig].
      * cbn [List.length] in Hb. lia.
      * reflexivity.
      * apply Z.mod_pos_bound. reflexivity.
      * fold text in IHfit, IHbig. cbn [behind] in IHfit.
        rewrite length_skipn in IHfit, IHbig.
        split.
        -- intros Hall. destruct IHfit as (budget' & Hb' & Heq); [lia|].
           exists budget'. split; [exact Hb'|]. rewrite Heq.
           rewrite skipn_skipn, bytes_app, <- app_assoc, u64_add_l.
           rewrite (Nat.add_comm (String.length text)).
           do 2 f_equal. lia.
        -- intros Hall. apply IHbig. lia.
    + rewrite (print_overflows c NUL t seg Ha Hbig).
      split; [lia|]. intros _. eexists. reflexivity.
Qed.

(** ** [sprint_oid] on complete arcs followed by any octets *)

Lemma concat_two (sep x y : string) (l : list string) :
  String.concat sep (x :: y :: l) =
  (x ++ sep ++ String.concat sep (y :: l))%string.
Proof. reflexivity. Qed.

Lemma dotted_later (x : string) (arcs : list Z) :
  String.concat "." (x :: map decimal arcs) = (x ++ later_text arcs)%string.
Proof.
  revert x. induction arcs as [|arc arcs IH]; intros x.
  - cbn. rewrite string_app_empty. reflexivity.
  - cbn [map later_text]. rewrite concat_two, IH. reflexivity.
Qed.

(** The text of the arcs of an encoding whose first octet is [n]. *)
Lemma dotted_arcs (n : byte) (arcs : list Z) :
  dotted (map u64 (u8 n / 40 :: u8 n mod 40 :: arcs)) =
  (decimal (u8 n / 40) ++ "." ++ decimal (u8 n mod 40)
     ++ later_text (map u64 arcs))%string.
Proof.
  pose proof (u8_range n) as Hn.
  pose proof (Z.mod_pos_bound (u8 n) 40 eq_refl) as Hm.
  assert (Hd : 0 <= u8 n / 40 < 256).
  { split; [apply Z.div_pos | apply Z.div_lt_upper_bound]; lia. }
  unfold dotted. cbn [map].
  rewrite (u64_small (u8 n / 40)), (u64_small (u8 n mod 40)) by lia.
  rewrite concat_two, dotted_later. reflexivity.
Qed.

Lemma sprint_oid_prefix (n : byte) (v1 v2 : list byte) (arcs : list Z)
    (buffer : list byte) :
  later_arcs None v1 = Some arcs ->
  let text := dotted (map u64 (u8 n / 40 :: u8 n mod 40 :: arcs)) in
  ((String.length text < List.length buffer)%nat ->
   exists budget',
     (List.length v2 <= budget')%nat /\
     sprint_oid (n :: v1 ++ v2) buffer =
     arcs_loop budget' v2
       {| behind := list_byte_of_string text;
          ahead := NUL :: skipn (S (String.length text)) buffer |}
       (u64 (Z.of_nat (String.length text)))) /\
  ((List.length buffer <= String.length text)%nat ->
   exists b, sprint_oid (n :: v1 ++ v2) buffer = Ok (- ENOBUFS, b)).
Proof.
  intros Hv. cbv zeta. rewrite dotted_arcs.
  set (head := (decimal (u8 n / 40) ++ "." ++ decimal (u8 n mod 40))%string).
  set (tail := later_text (map u64 arcs)).
  change (decimal (u8 n / 40) ++ "." ++ decimal (u8 n mod 40) ++ tail)%string
    with (decimal (u8 n / 40) ++ ("." ++ decimal (u8 n mod 40)) ++ tail)%string.
  rewrite <- !string_app_assoc. rewrite (string_app_assoc (decimal _)).
  fold head. rewrite string_app_length.
  unfold sprint_oid. fold head.
  set (c := {| behind := []; ahead := buffer |}).
  rewrite (surjective_pairing (print_at c head)).
  destruct buffer as [|x t].
  - split; [cbn [List.length]; lia|]. intros _.
    rewrite print_at_count. unfold bufsize. cbn [ahead c List.length].
    destruct (Z.geb_spec (Z.of_nat (String.length head)) (Z.of_nat 0));
      [|lia].
    eexists. reflexivity.
  - destruct (Nat.le_gt_cases (String.length head) (List.length t))
      as [Hfit|Hbig].
    + destruct (print_fits c x t head eq_refl Hfit) as [Hno Hadv].
      rewrite Hno, Hadv, print_at_count. cbn [behind c app].
      destruct (arcs_loop_prefix v2 arcs v1 (List.length (v1 ++ v2))
                  {| behind := list_byte_of_string head;
                     ahead := NUL :: skipn (String.length head) t |}
                  (skipn (String.length head) t)
                  (u64 (Z.of_nat (String.length head))) Hv)
        as [Lfit Lbig].
      * rewrite length_app. lia.
      * reflexivity.
      * apply Z.mod_pos_bound. reflexivity.
      * fold tail in Lfit, Lbig. cbn [behind] in Lfit.
        rewrite length_skipn in Lfit, Lbig. cbn [List.length].
        split.
        -- intros Hall. destruct Lfit as (budget' & Hb' & Heq); [lia|].
           exists budget'. split; [exact Hb'|]. rewrite Heq.
           rewrite skipn_skipn, bytes_app.
           rewrite (Nat.add_comm (String.length tail)).
           cbn [skipn].
           rewrite u64_add_l, <- Nat2Z.inj_add. reflexivity.
        -- intros Hall. apply Lbig. lia.
    + rewrite (print_overflows c x t head eq_refl Hbig).
      split; [cbn [List.length]; lia|]. intros _. eexists. reflexivity.
Qed.

Lemma oid_arcs_Some (data : list byte) (arcs : list Z) :
  oid_arcs data = Some arcs ->
  exists n v later,
    data = n :: v /\ later_arcs None v = Some later /\
    arcs = u8 n / 40 :: u8 n mod 40 :: later.
Proof.
  destruct data as [|n v]; [discriminate|]. cbn [oid_arcs].
  destruct (later_arcs None v) as [later|] eqn:E; cbn [option_map];
    intros H; [|discriminate].
  inversion H. exists n, v, later. repeat split. exact E.
Qed.

(** A well-formed encoding: the text is written whole when the buffer
    has room for it and its terminator, and [-ENOBUFS] is returned
    otherwise. *)
Lemma sprint_oid_well_formed (data : list byte) (arcs : list Z)
    (buffer : list byte) :
  oid_arcs data = Some arcs ->
  let text := dotted (map u64 arcs) in
  ((String.length text < List.length buffer)%nat ->
   sprint_oid data buffer =
   Ok (to_int (u64 (Z.of_nat (String.length text))),
       list_byte_of_string text
         ++ NUL :: skipn (S (String.length text)) buffer)) /\
  ((List.length buffer <= String.length text)%nat ->
   exists b, sprint_oid data buffer = Ok (- ENOBUFS, b)).
Proof.
  intros H. destruct (oid_arcs_Some _ _ H) as (n & v & later & -> & Hl & ->).
  destruct (sprint_oid_prefix n v [] later buffer Hl) as [Hfit Hbig].
  rewrite app_nil_r in Hfit, Hbig. cbv zeta. split.
  - intros Hroom. destruct (Hfit Hroom) as (budget' & _ & ->).
    destruct budget'; reflexivity.
  - exact Hbig.
Qed.

(** An encoding that ends inside an arc: [-EBADMSG], with the
    placeholder printed where the pointer stands, when the buffer has
    room for the text of the complete arcs; [-ENOBUFS] otherwise. *)
Lemma sprint_oid_truncated (p t : list byte) (arcs : list Z)
    (buffer : list byte) :
  oid_arcs p = Some arcs -> t <> [] -> Forall continues t ->
  let text := dotted (map u64 arcs) in
  ((String.length text < List.length buffer)%nat ->
   sprint_oid (p ++ t) buffer =
   Ok (- EBADMSG,
       list_byte_of_string text
         ++ fst (snprintf (NUL :: skipn (S (String.length text)) buffer)
                          "(bad)"))) /\
  ((List.length buffer <= String.length text)%nat ->
   exists b, sprint_oid (p ++ t) buffer = Ok (- ENOBUFS, b)).
Proof.
  intros H Hne Ht.
  destruct (oid_arcs_Some _ _ H) as (n & v & later & -> & Hl & ->).
  destruct (sprint_oid_prefix n v t later buffer Hl) as [Hfit Hbig].
  cbv zeta. split; [|exact Hbig].
  intros Hroom. destruct (Hfit Hroom) as (budget' & Hb & Heq).
  cbn [app]. rewrite Heq.
  destruct t as [|m t]; [congruence|].
  destruct budget' as [|budget']; [cbn [List.length] in Hb; lia|].
  cbn [arcs_loop]. rewrite (read_arc_truncated m t Ht).
  unfold bad, print_at. cbn [ahead behind].
  destruct (snprintf _ "(bad)"). reflexivity.
Qed.

(** Once the text of some complete arcs does not fit, [-ENOBUFS] is
    returned whatever follows them. *)
Lemma sprint_oid_fails_fast (p rest : list byte) (arcs : list Z)
    (buffer : list byte) :
  oid_arcs p = Some arcs ->
  (List.length buffer <= String.length (dotted (map u64 arcs)))%nat ->
  exists b, sprint_oid (p ++ rest) buffer = Ok (- ENOBUFS, b).
Proof.
  intros H Hbig.
  destruct (oid_arcs_Some _ _ H) as (n & v & later & -> & Hl & ->).
  destruct (sprint_oid_prefix n v rest later buffer Hl) as [_ Hb].
  cbn [app]. apply Hb. exact Hbig.
Qed.

(** An encoding that is not well-formed is empty, or is a well-formed
    encoding followed by a non-empty run of continuation octets. *)
Lemma later_arcs_None (v : list byte) :
  forall pending,
    later_arcs pending v = None ->
    (exists v1 t, v = v1 ++ t /\ later_arcs pending v1 <> None /\
                  t <> [] /\ Forall continues t) \/
    (pending <> None /\ Forall continues v).
Proof.
  induction v as [|n v IH]; intros pending H.
  - right. split; [|constructor]. destruct pending; [discriminate|].
    discriminate.
  - cbn [later_arcs] in H.
    destruct (Z.ltb_spec (u8 n) 128) as [Hlow|Hhigh].
    + destruct (later_arcs None v) as [arcs|] eqn:E; [discriminate|].
      destruct (IH None E) as [(v1 & t & -> & Hv1 & Ht)|[Hp _]];
        [|congruence].
      left. exists (n :: v1), t. split; [reflexivity|]. split; [|exact Ht].
      cbn [later_arcs]. destruct (Z.ltb_spec (u8 n) 128); [|lia].
      destruct (later_arcs None v1); [discriminate | congruence].
    + destruct (IH _ H) as [(v1 & t & -> & Hv1 & Ht)|[_ Hall]].
      * left. exists (n :: v1), t. split; [reflexivity|]. split; [|exact Ht].
        cbn [later_arcs]. destruct (Z.ltb_spec (u8 n) 128); [lia|].
        exact Hv1.
      * destruct pending as [acc|].
        -- right. split; [discriminate|]. constructor; assumption.
        -- left. exists [], (n :: v). repeat split; try discriminate.
           constructor; assumption.
Qed.

Lemma later_arcs_pending (t : list byte) (acc : Z) :
  Forall continues t -> later_arcs (Some acc) t = None.
Proof.
  intros Ht. revert acc. induction Ht as [|n t Hn _ IH]; intros acc;
    [reflexivity|].
  cbn [later_arcs]. unfold continues in Hn.
  destruct (Z.ltb_spec (u8 n) 128); [lia|]. apply IH.
Qed.

Lemma later_arcs_truncated (v1 t : list byte) :
  t <> [] -> Forall continues t ->
  forall pending arcs,
    later_arcs pending v1 = Some arcs -> later_arcs pending (v1 ++ t) = None.
Proof.
  intros Hne Ht. induction v1 as [|n v1 IH]; intros pending arcs H.
  - destruct pending; [discriminate|]. cbn [app].
    destruct t as [|m t]; [congruence|].
    inversion Ht as [|? ? Hm Ht']; subst. unfold continues in Hm.
    cbn [later_arcs]. destruct (Z.ltb_spec (u8 m) 128); [lia|].
    apply later_arcs_pending. exact Ht'.
  - cbn [app later_arcs] in *.
    destruct (u8 n <? 128).
    + destruct (later_arcs None v1) as [arcs'|] eqn:E; [|discriminate].
      rewrite (IH None arcs' E). reflexivity.
    + apply (IH _ arcs H).
Qed.

Lemma truncated_malformed (p t : list byte) :
  well_formed p -> t <> [] -> Forall continues t -> oid_arcs (p ++ t) = None.
Proof.
  unfold well_formed. intros Hp Hne Ht.
  destruct (oid_arcs p) as [arcs|] eqn:E; [|congruence].
  destruct (oid_arcs_Some _ _ E) as (n & v & later & -> & Hl & _).
  cbn [app oid_arcs].
  rewrite (later_arcs_truncated v t Hne Ht None later Hl). reflexivity.
Qed.

Lemma malformed_cases (data : list byte) :
  oid_arcs data = None ->
  data = [] \/
  exists p t, data = p ++ t /\ well_formed p /\ t <> [] /\
              Forall continues t.
Proof.
  destruct data as [|n v]; [left; reflexivity|]. intros H. right.
  cbn [oid_arcs] in H.
  destruct (later_arcs None v) as [arcs|] eqn:E; [discriminate|].
  destruct (later_arcs_None v None E) as [(v1 & t & -> & Hv1 & Ht)|[Hp _]];
    [|congruence].
  exists (n :: v1), t. split; [reflexivity|]. split; [|exact Ht].
  unfold well_formed. cbn [oid_arcs].
  destruct (later_arcs None v1); [discriminate | congruence].
Qed.

Lemma bad_eq (c : cursor) :
  bad c = (- EBADMSG, behind c ++ fst (snprintf (ahead c) "(bad)")).
Proof.
  unfold bad, print_at. destruct (snprintf (ahead c) "(bad)"). reflexivity.
Qed.

Lemma holds_prefix (text : string) (b : list byte) (s : string) :
  holds b s -> holds (list_byte_of_string text ++ b) (text ++ s).
Proof.
  intros [rest ->]. exists rest. rewrite bytes_app, <- app_assoc. reflexivity.
Qed.

Lemma holds_text (text : string) (rest : list byte) :
  holds (list_byte_of_string text ++ NUL :: rest) text.
Proof. exists rest. reflexivity. Qed.

Lemma returned_length (n : nat) :
  Z.of_nat n <= INT_MAX -> to_int (u64 (Z.of_nat n)) = Z.of_nat n.
Proof.
  unfold INT_MAX. intros H.
  rewrite u64_small, to_int_small; lia.
Qed.

(** ** The renderer *)

(** C4, as the code has it: [sprint_oid] returns [-EBADMSG] for the empty
    input; for a well-formed input it never does; an input that is not
    well-formed and not empty is a well-formed encoding followed by a
    non-empty run of continuation octets, and for such an input
    [-EBADMSG] is returned when the buffer has room for the text of the
    complete arcs and [-ENOBUFS] when it has not. *)
Theorem sprint_oid_malformed_cases :
  (forall buffer, exists b, sprint_oid [] buffer = Ok (- EBADMSG, b)) /\
  (forall data buffer,
      well_formed data -> Z.of_nat (List.length buffer) <= INT_MAX ->
      exists r b, sprint_oid data buffer = Ok (r, b) /\ r <> - EBADMSG) /\
  (forall data,
      ~ well_formed data <->
      data = [] \/
      exists p t, data = p ++ t /\ well_formed p /\ t <> [] /\
                  Forall continues t) /\
  (forall p t arcs buffer,
      oid_arcs p = Some arcs -> t <> [] -> Forall continues t ->
      exists b,
        sprint_oid (p ++ t) buffer =
        Ok ((if (String.length (dotted (map u64 arcs))
                 <? List.length buffer)%nat
             then - EBADMSG else - ENOBUFS), b)).
Proof.
  split; [|split; [|split]].
  - intros buffer. eexists. unfold sprint_oid. rewrite bad_eq. reflexivity.
  - intros data buffer Hwf Hcap. unfold well_formed in Hwf.
    destruct (oid_arcs data) as [arcs|] eqn:E; [|congruence].
    destruct (sprint_oid_well_formed data arcs buffer E) as [Hfit Hbig].
    cbv zeta in Hfit, Hbig.
    destruct (Nat.lt_ge_cases (String.length (dotted (map u64 arcs)))
                (List.length buffer)) as [Hroom|Hnone].
    + rewrite (Hfit Hroom). do 2 eexists. split; [reflexivity|].
      rewrite returned_length by lia. unfold EBADMSG. lia.
    + destruct (Hbig Hnone) as [b ->]. do 2 eexists.
      split; [reflexivity | discriminate].
  - intros data. split.
    + intros Hnot. apply malformed_cases.
      unfold well_formed in Hnot.
      destruct (oid_arcs data); [|reflexivity].
      exfalso. apply Hnot. discriminate.
    + intros [->|(p & t & -> & Hp & Hne & Ht)] Hwf; apply Hwf.
      * reflexivity.
      * apply truncated_malformed; assumption.
  - intros p t arcs buffer Hp Hne Ht.
    destruct (sprint_oid_truncated p t arcs buffer Hp Hne Ht) as [Hfit Hbig].
    cbv zeta in Hfit, Hbig.
    destruct (Nat.ltb_spec (String.length (dotted (map u64 arcs)))
                (List.length buffer)) as [Hroom|Hnone].
    + eexists. apply Hfit. exact Hroom.
    + apply Hbig. exact Hnone.
Qed.

Lemma sprint_oid_malformed_cases_witness :
  (exists r b, sprint_oid [x2a; x86; x48] (repeat x00 16) = Ok (r, b) /\
               r <> - EBADMSG) /\
  (exists b, sprint_oid ([x2a; x86; x48] ++ [x86]) (repeat x00 16) =
             Ok (- EBADMSG, b)) /\
  (exists b, sprint_oid ([x2a; x86; x48] ++ [x86]) (repeat x00 7) =
             Ok (- ENOBUFS, b)).
Proof.
  destruct sprint_oid_malformed_cases as (_ & Hwf & _ & Htr).
  split; [|split].
  - apply Hwf; [vm_compute; discriminate | vm_compute; discriminate].
  - apply (Htr [x2a; x86; x48] [x86] [1; 2; 840] (repeat x00 16)).
    + reflexivity.
    + discriminate.
    + repeat constructor; vm_compute; discriminate.
  - apply (Htr [x2a; x86; x48] [x86] [1; 2; 840] (repeat x00 7)).
    + reflexivity.
    + discriminate.
    + repeat constructor; vm_compute; discriminate.
Defined.

(** C4 as stated fails: the input [2A 86] ends while a continuation is
    expected, and with a buffer of three bytes the first segment "1.2"
    does not fit, so [-ENOBUFS] is returned, not [-EBADMSG]. *)
Lemma sprint_oid_truncated_small_buffer :
  oid_arcs [x2a; x86] = None /\
  sprint_oid [x2a; x86] [x00; x00; x00] = Ok (- ENOBUFS, [x31; x2e; x00]).
Proof. split; reflexivity. Qed.

(** C5: the encoding [2A 86 48] of 1.2.840 (seven characters) into a
    buffer of seven bytes returns [-ENOBUFS]; into a buffer of eight
    bytes or more it returns 7 and the buffer holds "1.2.840".  In
    general a non-negative return value is the length of the text that
    the buffer then holds, the terminator not counted; and as soon as
    the text of some leading arcs does not fit, [-ENOBUFS] is returned
    whatever octets follow them. *)
Theorem sprint_oid_capacity :
  (forall buffer,
      List.length buffer = 7%nat ->
      exists b, sprint_oid [x2a; x86; x48] buffer = Ok (- ENOBUFS, b)) /\
  (forall buffer,
      (8 <= List.length buffer)%nat ->
      exists b, sprint_oid [x2a; x86; x48] buffer = Ok (7, b) /\
                holds b "1.2.840") /\
  (forall data buffer r b,
      Z.of_nat (List.length buffer) <= INT_MAX ->
      sprint_oid data buffer = Ok (r, b) -> 0 <= r ->
      exists arcs,
        oid_arcs data = Some arcs /\
        r = Z.of_nat (String.length (dotted (map u64 arcs))) /\
        holds b (dotted (map u64 arcs))) /\
  (forall p rest arcs buffer,
      oid_arcs p = Some arcs ->
      (List.length buffer <= String.length (dotted (map u64 arcs)))%nat ->
      exists b, sprint_oid (p ++ rest) buffer = Ok (- ENOBUFS, b)).
Proof.
  split; [|split; [|split]].
  - intros buffer Hlen.
    destruct (sprint_oid_well_formed [x2a; x86; x48] [1; 2; 840] buffer
                eq_refl) as [_ Hbig].
    apply Hbig. rewrite Hlen. vm_compute. lia.
  - intros buffer Hlen.
    destruct (sprint_oid_well_formed [x2a; x86; x48] [1; 2; 840] buffer
                eq_refl) as [Hfit _].
    change (dotted (map u64 [1; 2; 840])) with "1.2.840"%string in Hfit.
    cbv zeta in Hfit. cbn [String.length] in Hfit.
    rewrite Hfit by lia. eexists. split; [reflexivity|].
    apply holds_text.
  - intros data buffer r b Hcap Hrun Hr.
    destruct (oid_arcs data) as [arcs|] eqn:E.
    + exists arcs. split; [reflexivity|].
      destruct (sprint_oid_well_formed data arcs buffer E) as [Hfit Hbig].
      cbv zeta in Hfit, Hbig.
      destruct (Nat.lt_ge_cases (String.length (dotted (map u64 arcs)))
                  (List.length buffer)) as [Hroom|Hnone].
      * rewrite (Hfit Hroom) in Hrun. inversion Hrun; subst r b.
        split; [apply returned_length; lia | apply holds_text].
      * destruct (Hbig Hnone) as [b' Hb']. rewrite Hb' in Hrun.
        inversion Hrun; subst r. unfold ENOBUFS in Hr. lia.
    + exfalso.
      destruct (malformed_cases data E) as [->|(p & t & -> & Hp & Hne & Ht)].
      * unfold sprint_oid in Hrun. rewrite bad_eq in Hrun.
        inversion Hrun; subst r. unfold EBADMSG in Hr. lia.
      * unfold well_formed in Hp.
        destruct (oid_arcs p) as [arcs|] eqn:Ep; [|congruence].
        destruct (sprint_oid_truncated p t arcs buffer Ep Hne Ht)
          as [Hfit Hbig].
        cbv zeta in Hfit, Hbig.
        destruct (Nat.lt_ge_cases (String.length (dotted (map u64 arcs)))
                    (List.length buffer)) as [Hroom|Hnone].
        -- rewrite (Hfit Hroom) in Hrun. inversion Hrun; subst r.
           unfold EBADMSG in Hr. lia.
        -- destruct (Hbig Hnone) as [b' Hb']. rewrite Hb' in Hrun.
           inversion Hrun; subst r. unfold ENOBUFS in Hr. lia.
  - intros p rest arcs buffer Hp Hbig.
    apply (sprint_oid_fails_fast p rest arcs buffer Hp Hbig).
Qed.

Lemma sprint_oid_capacity_witness :
  (exists b, sprint_oid [x2a; x86; x48] (repeat xff 7) = Ok (- ENOBUFS, b)) /\
  (exists b, sprint_oid [x2a; x86; x48] (repeat xff 8) = Ok (7, b) /\
             holds b "1.2.840") /\
  (exists arcs,
      oid_arcs [x2b; x0e; x03; x02; x1a] = Some arcs /\
      13 = Z.of_nat (String.length (dotted (map u64 arcs)))) /\
  (exists b, sprint_oid ([x2a; x86; x48] ++ [xff; xff]) (repeat xff 7) =
             Ok (- ENOBUFS, b)).
Proof.
  destruct sprint_oid_capacity as (H7 & H8 & Hret & Hfast).
  split; [|split; [|split]].
  - apply H7. reflexivity.
  - apply H8. vm_compute. lia.
  - destruct (Hret [x2b; x0e; x03; x02; x1a] (repeat xff 14) 13
                (list_byte_of_string "1.3.14.3.2.26" ++ [x00]))
      as (arcs & Ha & Hr & _).
    + vm_compute. discriminate.
    + reflexivity.
    + lia.
    + exists arcs. split; assumption.
  - apply (Hfast [x2a; x86; x48] [xff; xff] [1; 2; 840]).
    + reflexivity.
    + vm_compute. lia.
Defined.

(** C7: for a valid symbol of a well-shaped registry whose canonical
    encoding is well-formed, [sprint_OID] is [sprint_oid] on the Blob
    range [[offset[oid], offset[oid + 1])]; it returns, no [BUG_ON]
    fires, the value returned is not [-EBADMSG], and a negative value
    returned is [-ENOBUFS]. *)
Theorem sprint_OID_never_malformed (R : registry) (oid : Z)
    (buffer : list byte) :
  registry_shape R ->
  0 <= oid < OID__NR R ->
  well_formed (canonical_bytes R oid) ->
  Z.of_nat (List.length buffer) <= INT_MAX ->
  sprint_OID R oid buffer = sprint_oid (canonical_bytes R oid) buffer /\
  exists r b,
    sprint_OID R oid buffer = Ok (r, b) /\
    r <> - EBADMSG /\ (r < 0 -> r = - ENOBUFS).
Proof.
  intros shape Hoid Hwf Hcap.
  destruct (range_within_blob R shape oid Hoid) as [H1 H2].
  pose proof (index_within_blob R shape) as Hb.
  assert (Hsame : forall r b,
             sprint_oid (canonical_bytes R oid) buffer = Ok (r, b) ->
             r <> - EBADMSG ->
             sprint_OID R oid buffer = Ok (r, b)).
  { intros r b Hrun Hr. unfold sprint_OID.
    destruct (Z.geb_spec oid (OID__NR R)); [lia|].
    rewrite !(read_index R shape) by lia. cbn [bind].
    rewrite u64_small by lia. fold (canonical_bytes R oid).
    rewrite Hrun. cbn [bind fst].
    destruct (Z.eqb_spec r (- EBADMSG)); [contradiction | reflexivity]. }
  unfold well_formed in Hwf.
  destruct (oid_arcs (canonical_bytes R oid)) as [arcs|] eqn:E;
    [|congruence].
  destruct (sprint_oid_well_formed _ arcs buffer E) as [Hfit Hbig].
  cbv zeta in Hfit, Hbig.
  destruct (Nat.lt_ge_cases (String.length (dotted (map u64 arcs)))
              (List.length buffer)) as [Hroom|Hnone].
  - specialize (Hfit Hroom). rewrite returned_length in Hfit by lia.
    assert (Hr : Z.of_nat (String.length (dotted (map u64 arcs)))
                 <> - EBADMSG) by (unfold EBADMSG; lia).
    rewrite (Hsame _ _ Hfit Hr). split; [symmetry; exact Hfit|].
    do 2 eexists. split; [reflexivity|]. split; [exact Hr | lia].
  - destruct (Hbig Hnone) as [b Hrun].
    assert (Hr : - ENOBUFS <> - EBADMSG) by discriminate.
    rewrite (Hsame _ _ Hrun Hr). split; [symmetry; exact Hrun|].
    do 2 eexists. split; [reflexivity|]. split; [exact Hr | reflexivity].
Qed.

Lemma sprint_OID_never_malformed_witness :
  exists r b,
    sprint_OID Sample.sample 8 (repeat xff 32) = Ok (r, b) /\
    r <> - EBADMSG /\ (r < 0 -> r = - ENOBUFS).
Proof.
  apply (sprint_OID_never_malformed Sample.sample 8 (repeat xff 32)).
  - exact sample_shape.
  - vm_compute. split; [discriminate | reflexivity].
  - vm_compute. discriminate.
  - vm_compute. discriminate.
Defined.

Example sprint_OID_sha256WithRSAEncryption :
  exists b, sprint_OID Sample.sample 8 (repeat xff 32) = Ok (21, b) /\
            holds b "1.2.840.113549.1.1.11".
Proof.
  eexists. split; [vm_compute; reflexivity|].
  exists (repeat xff 10). reflexivity.
Qed.

Example sprint_OID_small_buffer :
  exists b, sprint_OID Sample.sample 8 (repeat xff 21) = Ok (- ENOBUFS, b).
Proof. eexists. vm_compute. reflexivity. Qed.

(** The arcs that the specification's decoding yields are not
    negative. *)
Lemma later_arcs_nonneg (v : list byte) :
  forall pending arcs,
    match pending with None => True | Some acc => 0 <= acc end ->
    later_arcs pending v = Some arcs -> Forall (fun arc => 0 <= arc) arcs.
Proof.
  induction v as [|n v IH]; intros pending arcs Hp H.
  - destruct pending; [discriminate|]. inversion H. constructor.
  - cbn [later_arcs] in H.
    pose proof (Z.mod_pos_bound (u8 n) 128 eq_refl) as Hm.
    assert (Hacc : 0 <= match pending with None => 0 | Some a => a end * 128
                        + u8 n mod 128).
    { destruct pending; lia. }
    destruct (u8 n <? 128).
    + destruct (later_arcs None v) as [arcs'|] eqn:E; [|discriminate].
      inversion H; subst arcs. constructor; [exact Hacc|].
      apply (IH None arcs' I E).
    + apply (IH (Some (match pending with None => 0 | Some a => a end * 128
                       + u8 n mod 128)) arcs Hacc H).
Qed.

Lemma machine_arcs_exact (arcs : list Z) :
  Forall (fun arc => 0 <= arc) arcs ->
  Forall (fun arc => arc < 2 ^ 64) arcs ->
  map u64 arcs = arcs.
Proof.
  induction arcs as [|arc arcs IH]; intros H0 H1; [reflexivity|].
  inversion H0; inversion H1; subst. cbn [map].
  rewrite u64_small, IH by (auto; lia). reflexivity.
Qed.

Lemma oid_arcs_nonneg (data : list byte) (arcs : list Z) :
  oid_arcs data = Some arcs -> Forall (fun arc => 0 <= arc) arcs.
Proof.
  intros H. destruct (oid_arcs_Some _ _ H) as (n & v & later & -> & Hl & ->).
  pose proof (u8_range n) as Hn.
  pose proof (Z.mod_pos_bound (u8 n) 40 eq_refl) as Hm.
  constructor; [apply Z.div_pos; lia|].
  constructor; [lia|].
  apply (later_arcs_nonneg v None later I Hl).
Qed.

(** C8, as the code has it: for a well-formed input whose arcs are all
    below 2^64 and a buffer with room for the text and its terminator,
    [sprint_oid] returns the length of the dotted decimal text of the
    arcs and leaves that text in the buffer; the arcs are [n / 40] and
    [n % 40] for the first octet [n], in this order, followed by the
    base-128 values of the later octets in input order. *)
Theorem sprint_oid_dotted (data : list byte) (arcs : list Z)
    (buffer : list byte) :
  oid_arcs data = Some arcs ->
  Forall (fun arc => arc < 2 ^ 64) arcs ->
  Z.of_nat (List.length buffer) <= INT_MAX ->
  (String.length (dotted arcs) < List.length buffer)%nat ->
  (exists n v later,
      data = n :: v /\ later_arcs None v = Some later /\
      arcs = u8 n / 40 :: u8 n mod 40 :: later) /\
  exists b,
    sprint_oid data buffer = Ok (Z.of_nat (String.length (dotted arcs)), b) /\
    holds b (dotted arcs).
Proof.
  intros H Hsmall Hcap Hroom. split; [apply oid_arcs_Some; exact H|].
  destruct (sprint_oid_well_formed data arcs buffer H) as [Hfit _].
  rewrite (machine_arcs_exact arcs (oid_arcs_nonneg data arcs H) Hsmall)
    in Hfit.
  cbv zeta in Hfit. rewrite (Hfit Hroom), returned_length by lia.
  eexists. split; [reflexivity | apply holds_text].
Qed.

Lemma sprint_oid_dotted_witness :
  exists b,
    sprint_oid [x2a; x86; x48; x86; xf7; x0d] (repeat xff 16) = Ok (14, b) /\
    holds b "1.2.840.113549".
Proof.
  apply (sprint_oid_dotted [x2a; x86; x48; x86; xf7; x0d] [1; 2; 840; 113549]
           (repeat xff 16)).
  - reflexivity.
  - repeat constructor.
  - vm_compute. discriminate.
  - vm_compute. lia.
Defined.

Example arcs_sha256WithRSAEncryption :
  oid_arcs [x2a; x86; x48; x86; xf7; x0d; x01; x01; x0b] =
  Some [1; 2; 840; 113549; 1; 1; 11].
Proof. reflexivity. Qed.

(** The first octet 42 stands for the arcs 1 and 2. *)
Example first_octet_42 :
  oid_arcs [x2a] = Some [1; 2] /\
  exists b, sprint_oid [x2a] (repeat xff 4) = Ok (3, b) /\ holds b "1.2".
Proof.
  split; [reflexivity|]. eexists. split; [vm_compute; reflexivity|].
  exists []. reflexivity.
Qed.

(** C8 as stated fails: the well-formed input [2A 82 80 80 80 80 80 80
    80 80 80 00] has the arcs 1, 2 and 2^71, and [sprint_oid] renders
    "1.2.0". *)
Lemma sprint_oid_large_arc :
  let data := [x2a; x82; x80; x80; x80; x80; x80; x80; x80; x80; x80; x00] in
  oid_arcs data = Some [1; 2; 2 ^ 71] /\
  dotted [1; 2; 2 ^ 71] = "1.2.2361183241434822606848"%string /\
  sprint_oid data (repeat x00 32) =
  Ok (5, list_byte_of_string "1.2.0" ++ repeat x00 27).
Proof. cbv zeta. repeat split; vm_compute; reflexivity. Qed.

(** C9, as the code has it: when [sprint_oid] returns [-EBADMSG] the
    placeholder "(bad)" is printed where the pointer stands, truncated to
    the capacity that is left.  For the empty input that is the start of
    the buffer; for an input that ends inside an arc the buffer holds the
    text of the complete arcs followed by the placeholder. *)
Theorem sprint_oid_bad_placeholder :
  (forall buffer,
      exists b, sprint_oid [] buffer = Ok (- EBADMSG, b) /\
                (buffer = [] -> b = []) /\
                (buffer <> [] ->
                 holds b (substring 0 (List.length buffer - 1) "(bad)"))) /\
  (forall p t arcs buffer,
      oid_arcs p = Some arcs -> t <> [] -> Forall continues t ->
      let text := dotted (map u64 arcs) in
      (String.length text < List.length buffer)%nat ->
      exists b,
        sprint_oid (p ++ t) buffer = Ok (- EBADMSG, b) /\
        holds b (text ++ substring
                   0 (List.length buffer - String.length text - 1) "(bad)")).
Proof.
  split.
  - intros buffer. eexists. split; [|split].
    + unfold sprint_oid. rewrite bad_eq. reflexivity.
    + intros ->. reflexivity.
    + intros Hne. cbn [behind ahead app]. apply snprintf_holds. exact Hne.
  - intros p t arcs buffer Hp Hne Ht text Hroom.
    destruct (sprint_oid_truncated p t arcs buffer Hp Hne Ht) as [Hfit _].
    fold text in Hfit. cbv zeta in Hfit. rewrite (Hfit Hroom).
    eexists. split; [reflexivity|].
    apply holds_prefix.
    replace (List.length buffer - String.length text - 1)%nat
      with (List.length (NUL :: skipn (S (String.length text)) buffer) - 1)%nat
      by (cbn [List.length]; rewrite length_skipn; lia).
    apply snprintf_holds. discriminate.
Qed.

Lemma sprint_oid_bad_placeholder_witness :
  (exists b, sprint_oid [] (repeat xff 3) = Ok (- EBADMSG, b) /\ holds b "(b") /\
  (exists b, sprint_oid ([x2a] ++ [x86]) (repeat xff 6) = Ok (- EBADMSG, b) /\
             holds b "1.2(b").
Proof.
  destruct sprint_oid_bad_placeholder as [Hempty Htrunc].
  split.
  - destruct (Hempty (repeat xff 3)) as (b & Hrun & _ & Hb).
    exists b. split; [exact Hrun|]. apply Hb. discriminate.
  - apply (Htrunc [x2a] [x86] [1; 2] (repeat xff 6)).
    + reflexivity.
    + discriminate.
    + repeat constructor; vm_compute; discriminate.
    + vm_compute. lia.
Defined.

(** C9 as stated fails: for the input [2A 86], which ends inside an arc,
    a buffer of twelve bytes is left holding "1.2(bad)", not "(bad)". *)
Lemma sprint_oid_bad_after_arcs :
  sprint_oid [x2a; x86] (repeat x00 12) =
  Ok (- EBADMSG, list_byte_of_string "1.2(bad)" ++ repeat x00 4) /\
  ~ holds (list_byte_of_string "1.2(bad)" ++ repeat x00 4) "(bad)".
Proof.
  split; [vm_compute; reflexivity|].
  intros [rest H]. vm_compute in H. discriminate.
Qed.

(** C10: the arc is accumulated in a 64-bit word without a check, so the
    word holds the base-128 value modulo 2^64; every well-formed input
    is rendered, with its arcs reduced modulo 2^64, when the buffer has
    room; and the well-formed input [2A 82 80 80 80 80 80 80 80 80 80 00],
    whose third arc is 2^71, is rendered with success as "1.2.0". *)
Theorem sprint_oid_arc_wraps :
  (forall n v arc arcs,
      later_arcs None (n :: v) = Some (arc :: arcs) ->
      exists rest, read_arc n v = Some (u64 arc, rest)) /\
  (forall data arcs buffer,
      oid_arcs data = Some arcs ->
      Z.of_nat (List.length buffer) <= INT_MAX ->
      (String.length (dotted (map u64 arcs)) < List.length buffer)%nat ->
      exists b,
        sprint_oid data buffer =
        Ok (Z.of_nat (String.length (dotted (map u64 arcs))), b) /\
        holds b (dotted (map u64 arcs))) /\
  (let data := [x2a; x82; x80; x80; x80; x80; x80; x80; x80; x80; x80; x00] in
   oid_arcs data = Some [1; 2; 2 ^ 71] /\
   u64 (2 ^ 71) = 0 /\
   exists b, sprint_oid data (repeat x00 32) = Ok (5, b) /\ holds b "1.2.0").
Proof.
  split; [|split].
  - intros n v arc arcs H.
    destruct (read_arc_complete [] n v _ H)
      as (arc0 & arcs0 & v1' & E & Hr & _).
    inversion E; subst. rewrite !app_nil_r in Hr. eauto.
  - intros data arcs buffer H Hcap Hroom.
    destruct (sprint_oid_well_formed data arcs buffer H) as [Hfit _].
    cbv zeta in Hfit. rewrite (Hfit Hroom), returned_length by lia.
    eexists. split; [reflexivity | apply holds_text].
  - cbv zeta. split; [reflexivity|]. split; [reflexivity|].
    eexists. split; [vm_compute; reflexivity|].
    exists (repeat x00 26). reflexivity.
Qed.

Lemma sprint_oid_arc_wraps_witness :
  (exists rest,
      read_arc x82 [x80; x80; x80; x80; x80; x80; x80; x80; x80; x00] =
      Some (u64 (2 ^ 71), rest)) /\
  (exists b,
      sprint_oid [x2a; x81; xff; xff; xff; xff; xff; xff; xff; xff; xff; x7f]
                 (repeat x00 32) = Ok (24, b) /\
      holds b "1.2.18446744073709551615").
Proof.
  destruct sprint_oid_arc_wraps as (Hword & Hrender & _).
  split.
  - apply (Hword x82 [x80; x80; x80; x80; x80; x80; x80; x80; x80; x00]
             (2 ^ 71) []).
    reflexivity.
  - apply (Hrender [x2a; x81; xff; xff; xff; xff; xff; xff; xff; xff; xff; x7f]
             [1; 2; 2 ^ 71 - 1] (repeat x00 32)).
    + reflexivity.
    + vm_compute. discriminate.
    + vm_compute. lia.
Defined.

(** ** The digest mapping on the sample enumeration *)

Lemma sample_enum_distinct : enum_distinct Sample.sample_enum.
Proof.
  unfold enum_distinct, signature_symbols, digest_symbols. cbn.
  repeat (constructor; [cbn [In]; intuition discriminate|]).
  constructor.
Qed.

Lemma lookup_oid_digest_info_exact_witness :
  let out := {| digest_algo := Some ""%string;
                digest_len := Some 0;
                digest_oid := None |} in
  lookup_oid_digest_info Sample.sample_enum 8 out =
  (0, {| digest_algo := Some "sha256"%string;
         digest_len := Some 32;
         digest_oid := None |}) /\
  lookup_oid_digest_info Sample.sample_enum 15 out = (-1, out).
Proof.
  cbv zeta.
  destruct (lookup_oid_digest_info_exact Sample.sample_enum
              {| digest_algo := Some ""%string;
                 digest_len := Some 0;
                 digest_oid := None |} sample_enum_distinct)
    as (Hsig & _ & _ & Hdig).
  split.
  - apply (Hsig 8 "sha256"%string 32 15). cbn. tauto.
  - apply Hdig. cbn. tauto.
Defined.

(** * Further properties of the code *)

(** ** [look_up_OID] on any table of the stated shape *)

Section Search.

Variable R : registry.
Hypothesis shape : registry_shape R.

Let N := OID__NR R.

Lemma midpoint_bounds (i k : Z) :
  i < k -> i <= (i + k) / 2 < k /\ 2 * ((i + k) / 2) <= i + k < 2 * ((i + k) / 2) + 2.
Proof.
  intros Hik.
  pose proof (Z.mul_div_le (i + k) 2 eq_refl) as H1.
  pose proof (Z.mul_succ_div_gt (i + k) 2 eq_refl) as H2.
  lia.
Qed.

(** The interval halves on every iteration: any budget [b] with
    [k - i < 2 ^ b] gives the result of any budget that is at least
    [k - i]. *)
Lemma search_budget (octets : list byte) (hash : Z) (b : nat) :
  forall (b' : nat) (i k : Z),
    0 <= i -> k <= N ->
    k - i < 2 ^ Z.of_nat b -> k - i <= Z.of_nat b' ->
    search_loop R octets hash b i k = search_loop R octets hash b' i k.
Proof.
  induction b as [|b IH]; intros b' i k Hi Hk Hpow Hlin.
  - change (2 ^ Z.of_nat 0) with 1 in Hpow.
    destruct b'; cbn [search_loop];
      destruct (Z.ltb_spec i k); try lia; reflexivity.
  - destruct (Z_lt_ge_dec i k) as [Hlt|Hge].
    + destruct b' as [|b']; [lia|].
      destruct (midpoint_bounds i k Hlt) as [Hj Hm].
      destruct (read_search_table R shape ((i + k) / 2))
        as (e & _ & He & _); [fold N; lia|].
      rewrite !(search_step R shape octets hash _ i k e) by (auto; lia).
      rewrite Nat2Z.inj_succ, Z.pow_succ_r in Hpow by lia.
      rewrite Nat2Z.inj_succ in Hlin.
      destruct (key_compare _ _ hash octets); [reflexivity| |];
        apply IH; lia.
    + destruct b'; cbn [search_loop];
        destruct (Z.ltb_spec i k); try lia; reflexivity.
Qed.

End Search.

Lemma look_up_OID_returns (R : registry) (octets : list byte) :
  registry_shape R ->
  exists r,
    look_up_OID R octets = Ok r /\
    (r = OID__NR R \/
     (0 <= r < OID__NR R /\ canonical_bytes R r = octets)).
Proof.
  intros shape. pose proof (nr_range R shape) as Hr.
  unfold look_up_OID. rewrite u32_small by lia.
  destruct (search_result R shape octets (oid_hash octets)
              (Z.to_nat (OID__NR R)) 0 (OID__NR R))
    as [H|(e & Hin & Hkey & H)]; try lia.
  - exists (OID__NR R). auto.
  - exists (entry_oid e). split; [exact H|]. right.
    apply key_compare_eq in Hkey. destruct Hkey as [_ Hb].
    split; [apply (search_table_symbols R shape e Hin) | exact Hb].
Qed.

(** X1: whatever the order of the search index, [look_up_OID], run from
    its first line on a registry of the stated shape and an input of
    fewer than 2^32 octets, returns, without a fault, either [OID__NR]
    or a symbol whose canonical bytes are exactly the input: an unsorted
    index can make it miss an OID, never name a wrong one.  With 2^32
    octets or more it does not return: the hash loop never exits. *)
Theorem look_up_OID_sound (R : registry) (octets : list byte) :
  registry_shape R ->
  (Z.of_nat (List.length octets) < 2 ^ 32 ->
   exists r,
     look_up_OID_counted R octets = Ok r /\
     (r = OID__NR R \/
      (0 <= r < OID__NR R /\ canonical_bytes R r = octets))) /\
  (2 ^ 32 <= Z.of_nat (List.length octets) ->
   look_up_OID_counted R octets = Diverge /\
   forall budget, hash_loop octets budget 0
                    (u32 (Z.of_nat (List.length octets) - 1)) = Diverge).
Proof.
  intros shape. split.
  - intros Hsize. rewrite look_up_OID_counted_eq by exact Hsize.
    apply look_up_OID_returns. exact shape.
  - intros Hsize. split.
    + apply look_up_OID_counted_diverges. exact Hsize.
    + intros budget. apply hash_loop_never_exits; [exact Hsize | lia].
Qed.

Lemma look_up_OID_sound_witness :
  exists r,
    look_up_OID_counted Sample.sample [x2b; x0e; x03; x02; x1a] = Ok r /\
    (r = 19 \/
     (0 <= r < 19 /\
      canonical_bytes Sample.sample r = [x2b; x0e; x03; x02; x1a])).
Proof.
  apply (look_up_OID_sound Sample.sample [x2b; x0e; x03; x02; x1a]).
  - exact sample_shape.
  - reflexivity.
Defined.

(** X2: the binary search needs at most [b] iterations when
    [OID__NR < 2 ^ b]: for any hash value and any input the loop of
    lines 47-89 run with that budget returns a value, the one it returns
    with the budget [OID__NR]; so for an input of fewer than 2^32 octets
    it returns what [look_up_OID], run from its first line, returns. *)
Theorem look_up_OID_logarithmic (R : registry) (octets : list byte)
    (b : nat) :
  registry_shape R ->
  OID__NR R < 2 ^ Z.of_nat b ->
  (forall hash,
      exists r,
        search_loop R octets hash b 0 (u32 (OID__NR R)) = Ok r /\
        search_loop R octets hash (Z.to_nat (OID__NR R)) 0
                    (u32 (OID__NR R)) = Ok r) /\
  (Z.of_nat (List.length octets) < 2 ^ 32 ->
   exists r,
     search_loop R octets (oid_hash octets) b 0 (u32 (OID__NR R)) = Ok r /\
     look_up_OID_counted R octets = Ok r).
Proof.
  intros shape Hb. pose proof (nr_range R shape) as Hr.
  assert (Hany : forall hash,
             exists r,
               search_loop R octets hash b 0 (u32 (OID__NR R)) = Ok r /\
               search_loop R octets hash (Z.to_nat (OID__NR R)) 0
                           (u32 (OID__NR R)) = Ok r).
  { intros hash. rewrite u32_small by lia.
    rewrite (search_budget R shape octets hash b (Z.to_nat (OID__NR R)))
      by lia.
    destruct (search_result R shape octets hash (Z.to_nat (OID__NR R)) 0
                (OID__NR R)) as [H|(e & _ & _ & H)]; try lia;
      rewrite H; eexists; split; reflexivity. }
  split; [exact Hany|].
  intros Hsize. rewrite look_up_OID_counted_eq by exact Hsize.
  apply Hany.
Qed.

Lemma look_up_OID_logarithmic_witness :
  exists r,
    search_loop Sample.sample [x2b; x0e; x03; x02; x1a]
      (oid_hash [x2b; x0e; x03; x02; x1a]) 5 0 (u32 19) = Ok r /\
    look_up_OID_counted Sample.sample [x2b; x0e; x03; x02; x1a] = Ok r.
Proof.
  apply (look_up_OID_logarithmic Sample.sample [x2b; x0e; x03; x02; x1a] 5).
  - exact sample_shape.
  - reflexivity.
  - reflexivity.
Defined.

(** ** The hash does not see the order of the octets *)

Lemma weighted_sum_permutation (a b : list byte) :
  Permutation a b -> weighted_sum a = weighted_sum b.
Proof.
  induction 1 as [|x a b _ IH|x y a|a b c _ IH1 _ IH2]; cbn [weighted_sum fold_right].
  - reflexivity.
  - fold (weighted_sum a). fold (weighted_sum b). lia.
  - lia.
  - congruence.
Qed.

(** X3: two inputs that are permutations of each other have the same
    hash byte: the hash adds the octets up, so it depends on their
    number and their sum only. *)
Theorem oid_hash_permutation (a b : list byte) :
  Permutation a b -> oid_hash a = oid_hash b.
Proof.
  intros H. unfold oid_hash.
  rewrite !hash_loop_sum.
  rewrite (Permutation_length H), (weighted_sum_permutation a b H).
  reflexivity.
Qed.

Lemma oid_hash_permutation_witness :
  oid_hash [x2a; x86; x48] = oid_hash [x48; x2a; x86].
Proof.
  apply oid_hash_permutation.
  apply Permutation_sym. apply (Permutation_cons_append [x2a; x86] x48).
Defined.

(** ** [sprint_oid]: the buffer *)

Lemma continuation_shorter (v : list byte) :
  forall num num' v',
    continuation num v = Some (num', v') ->
    (List.length v' < List.length v)%nat.
Proof.
  induction v as [|n v IH]; intros num num' v' H; [discriminate|].
  cbn [continuation] in H. cbn [List.length].
  destruct (negb (Z.land (u8 n) 128 =? 0)).
  - apply IH in H. lia.
  - inversion H; subst. lia.
Qed.

Lemma read_arc_shorter (n : byte) (v : list byte) (num : Z) (v' : list byte) :
  read_arc n v = Some (num, v') -> (List.length v' <= List.length v)%nat.
Proof.
  unfold read_arc. destruct (Z.land (u8 n) 128 =? 0); intros H.
  - inversion H; subst. lia.
  - apply continuation_shorter in H. lia.
Qed.

(** A budget that covers the octets is never used up: the loop does not
    depend on it. *)
Lemma arcs_loop_budget (b : nat) :
  forall (b' : nat) (v : list byte) (c : cursor) (ret : Z),
    (List.length v <= b)%nat -> (List.length v <= b')%nat ->
    arcs_loop b v c ret = arcs_loop b' v c ret.
Proof.
  induction b as [|b IH]; intros b' v c ret Hb Hb'.
  - destruct v; [|cbn [List.length] in Hb; lia]. destruct b'; reflexivity.
  - destruct v as [|n v]; [destruct b'; reflexivity|].
    destruct b' as [|b']; [cbn [List.length] in Hb'; lia|].
    cbn [List.length] in Hb, Hb'. cbn [arcs_loop].
    destruct (read_arc n v) as [[num v']|] eqn:E; [|reflexivity].
    apply read_arc_shorter in E.
    destruct (print_at c ("." ++ decimal num)) as [c' count].
    destruct (count >=? bufsize c); [reflexivity|].
    apply IH; lia.
Qed.

Lemma print_at_contents_length (c : cursor) (seg : string) :
  List.length (contents (fst (print_at c seg))) = List.length (contents c).
Proof.
  unfold print_at, contents.
  pose proof (snprintf_length (ahead c) seg) as H.
  destruct (snprintf (ahead c) seg) as [region count]. cbn [fst] in *.
  cbn [behind ahead]. rewrite !length_app. lia.
Qed.

Lemma advance_contents (c : cursor) (count : Z) :
  contents (advance c count) = contents c.
Proof.
  unfold contents, advance. cbn [behind ahead].
  rewrite <- app_assoc, firstn_skipn. reflexivity.
Qed.

Lemma bad_length (c : cursor) :
  List.length (snd (bad c)) = List.length (contents c).
Proof.
  rewrite bad_eq. cbn [snd]. unfold contents.
  rewrite !length_app, snprintf_length. reflexivity.
Qed.

(** The loop returns, and the caller's buffer keeps its size. *)
Lemma arcs_loop_length (budget : nat) :
  forall (v : list byte) (c : cursor) (ret : Z),
    (List.length v <= budget)%nat ->
    exists r b,
      arcs_loop budget v c ret = Ok (r, b) /\
      List.length b = List.length (contents c).
Proof.
  induction budget as [|budget IH]; intros v c ret Hb.
  - destruct v; [|cbn [List.length] in Hb; lia].
    do 2 eexists. split; reflexivity.
  - destruct v as [|n v]; [do 2 eexists; split; reflexivity|].
    cbn [List.length] in Hb. cbn [arcs_loop].
    destruct (read_arc n v) as [[num v']|] eqn:E.
    + apply read_arc_shorter in E.
      pose proof (print_at_contents_length c ("." ++ decimal num)) as Hp.
      destruct (print_at c ("." ++ decimal num)) as [c' count].
      cbn [fst] in Hp.
      destruct (count >=? bufsize c).
      * do 2 eexists. split; [reflexivity | exact Hp].
      * destruct (IH v' (advance c' count) (u64 (ret + count)))
          as (r & b & Hrun & Hlen); [lia|].
        exists r, b. split; [exact Hrun|].
        rewrite Hlen, advance_contents. exact Hp.
    + exists (fst (bad c)), (snd (bad c)).
      split; [rewrite <- surjective_pairing; reflexivity | apply bad_length].
Qed.

Lemma sprint_oid_length (data buffer : list byte) :
  exists r b,
    sprint_oid data buffer = Ok (r, b) /\
    List.length b = List.length buffer.
Proof.
  unfold sprint_oid. destruct data as [|n v].
  - exists (fst (bad {| behind := []; ahead := buffer |})),
           (snd (bad {| behind := []; ahead := buffer |})).
    split; [rewrite <- surjective_pairing; reflexivity|].
    rewrite bad_length. reflexivity.
  - set (c := {| behind := []; ahead := buffer |}).
    set (head := (decimal (u8 n / 40) ++ "." ++ decimal (u8 n mod 40))%string).
    pose proof (print_at_contents_length c head) as Hp.
    destruct (print_at c head) as [c' count]. cbn [fst] in Hp.
    destruct (count >=? bufsize c).
    + do 2 eexists. split; [reflexivity | exact Hp].
    + destruct (arcs_loop_length (List.length v) v (advance c' count)
                  (u64 count) (le_n _)) as (r & b & Hrun & Hlen).
      exists r, b. split; [exact Hrun|].
      rewrite Hlen, advance_contents. exact Hp.
Qed.

(** The return value of [sprint_oid], case by case. *)
Lemma sprint_oid_return (data buffer : list byte) (r : Z) (b : list byte) :
  Z.of_nat (List.length buffer) <= INT_MAX ->
  sprint_oid data buffer = Ok (r, b) ->
  r = - EBADMSG \/ r = - ENOBUFS \/
  exists arcs,
    oid_arcs data = Some arcs /\
    (String.length (dotted (map u64 arcs)) < List.length buffer)%nat /\
    r = Z.of_nat (String.length (dotted (map u64 arcs))) /\
    b = list_byte_of_string (dotted (map u64 arcs))
          ++ NUL :: skipn (S (String.length (dotted (map u64 arcs)))) buffer.
Proof.
  intros Hcap Hrun.
  destruct (oid_arcs data) as [arcs|] eqn:E.
  - destruct (sprint_oid_well_formed data arcs buffer E) as [Hfit Hbig].
    cbv zeta in Hfit, Hbig.
    destruct (Nat.lt_ge_cases (String.length (dotted (map u64 arcs)))
                (List.length buffer)) as [Hroom|Hnone].
    + rewrite (Hfit Hroom), returned_length in Hrun by lia.
      inversion Hrun; subst r b. right. right. exists arcs. auto.
    + destruct (Hbig Hnone) as [b' Hb']. rewrite Hb' in Hrun.
      inversion Hrun. auto.
  - destruct (malformed_cases data E) as [->|(p & t & -> & Hp & Hne & Ht)].
    + unfold sprint_oid in Hrun. rewrite bad_eq in Hrun.
      inversion Hrun. auto.
    + unfold well_formed in Hp.
      destruct (oid_arcs p) as [arcs|] eqn:Ep; [|congruence].
      destruct (sprint_oid_truncated p t arcs buffer Ep Hne Ht)
        as [Hfit Hbig].
      cbv zeta in Hfit, Hbig.
      destruct (Nat.lt_ge_cases (String.length (dotted (map u64 arcs)))
                  (List.length buffer)) as [Hroom|Hnone].
      * rewrite (Hfit Hroom) in Hrun. inversion Hrun. auto.
      * destruct (Hbig Hnone) as [b' Hb']. rewrite Hb' in Hrun.
        inversion Hrun. auto.
Qed.

(** X4: for every input and every buffer of at most [INT_MAX] bytes
    [sprint_oid] returns; the value is [-EBADMSG], [-ENOBUFS] or a
    length below the capacity; and the caller's buffer has afterwards
    the size it had before. *)
Theorem sprint_oid_returns (data buffer : list byte) :
  Z.of_nat (List.length buffer) <= INT_MAX ->
  exists r b,
    sprint_oid data buffer = Ok (r, b) /\
    List.length b = List.length buffer /\
    (r = - EBADMSG \/ r = - ENOBUFS \/
     0 <= r < Z.of_nat (List.length buffer)).
Proof.
  intros Hcap.
  destruct (sprint_oid_length data buffer) as (r & b & Hrun & Hlen).
  exists r, b. split; [exact Hrun|]. split; [exact Hlen|].
  destruct (sprint_oid_return data buffer r b Hcap Hrun)
    as [H|[H|(arcs & _ & Hroom & Hr & _)]]; auto.
  right. right. lia.
Qed.

Lemma sprint_oid_returns_witness :
  exists r b,
    sprint_oid [x2a; x86; x48; x86] (repeat xff 9) = Ok (r, b) /\
    List.length b = 9%nat /\
    (r = - EBADMSG \/ r = - ENOBUFS \/ 0 <= r < 9).
Proof.
  apply (sprint_oid_returns [x2a; x86; x48; x86] (repeat xff 9)).
  vm_compute. discriminate.
Defined.

(** ** [sprint_oid]: the text in the buffer *)

Lemma digits_no_terminator (d : Decimal.uint) :
  no_terminator (list_byte_of_string (NilEmpty.string_of_uint d)).
Proof.
  unfold no_terminator.
  induction d; cbn; constructor; try discriminate; assumption.
Qed.

Lemma decimal_no_terminator (n : Z) :
  no_terminator (list_byte_of_string (decimal n)).
Proof.
  unfold decimal, NilZero.string_of_uint.
  destruct (N.to_uint (Z.to_N n)) eqn:E;
    try (rewrite <- E; apply digits_no_terminator).
  cbn. constructor; [discriminate | constructor].
Qed.

Lemma later_text_no_terminator (arcs : list Z) :
  no_terminator (list_byte_of_string (later_text arcs)).
Proof.
  unfold no_terminator.
  induction arcs as [|arc arcs IH]; cbn [later_text]; [constructor|].
  rewrite (bytes_app "." _). apply Forall_app.
  split; [constructor; [discriminate | constructor]|].
  rewrite bytes_app. apply Forall_app. split; [|exact IH].
  apply decimal_no_terminator.
Qed.

Lemma dotted_no_terminator (arcs : list Z) :
  no_terminator (list_byte_of_string (dotted arcs)).
Proof.
  unfold dotted. destruct arcs as [|arc arcs]; [constructor|].
  cbn [map]. rewrite dotted_later, bytes_app.
  apply Forall_app. split.
  - apply decimal_no_terminator.
  - apply later_text_no_terminator.
Qed.

Lemma strlen_text (bytes rest : list byte) :
  no_terminator bytes ->
  strlen (bytes ++ NUL :: rest) = List.length bytes.
Proof.
  induction 1 as [|x bytes Hx _ IH]; [reflexivity|].
  cbn [app strlen List.length].
  destruct (Byte.eqb x NUL) eqn:E; [|congruence].
  apply Byte.byte_dec_bl in E. contradiction.
Qed.

(** X5: when [sprint_oid] returns a length [r], the buffer holds a C
    string of exactly [r] characters (the text contains no terminator of
    its own, so [strlen] of the buffer is the return value), and every
    byte of the caller's buffer after that string's terminator is left
    as it was. *)
Theorem sprint_oid_success_buffer (data buffer : list byte) (r : Z)
    (b : list byte) :
  Z.of_nat (List.length buffer) <= INT_MAX ->
  sprint_oid data buffer = Ok (r, b) -> 0 <= r ->
  Z.of_nat (strlen b) = r /\
  skipn (S (Z.to_nat r)) b = skipn (S (Z.to_nat r)) buffer.
Proof.
  intros Hcap Hrun Hr.
  destruct (sprint_oid_return data buffer r b Hcap Hrun)
    as [H|[H|(arcs & _ & _ & -> & ->)]];
    [unfold EBADMSG in H; lia | unfold ENOBUFS in H; lia|].
  set (text := dotted (map u64 arcs)).
  pose proof (dotted_no_terminator (map u64 arcs)) as Hno. fold text in Hno.
  split.
  - rewrite strlen_text, bytes_length by exact Hno. reflexivity.
  - rewrite Nat2Z.id.
    change (list_byte_of_string text
              ++ NUL :: skipn (S (String.length text)) buffer)
      with (list_byte_of_string text
              ++ [NUL] ++ skipn (S (String.length text)) buffer).
    rewrite app_assoc.
    replace (S (String.length text))
      with (List.length (list_byte_of_string text ++ [NUL])) at 1
      by (rewrite length_app, bytes_length; cbn [List.length]; lia).
    apply skipn_exact.
Qed.

Lemma sprint_oid_success_buffer_witness :
  Z.of_nat (strlen (list_byte_of_string "1.2.840" ++ [x00; xff; xff])) = 7 /\
  skipn (S (Z.to_nat 7)) (list_byte_of_string "1.2.840" ++ [x00; xff; xff]) =
  skipn (S (Z.to_nat 7)) (repeat xff 10).
Proof.
  apply (sprint_oid_success_buffer [x2a; x86; x48] (repeat xff 10)).
  - vm_compute. discriminate.
  - reflexivity.
  - lia.
Defined.

(** ** [sprint_oid]: what a small buffer is left with *)

Lemma print_overflow_contents (c : cursor) (x : byte) (t : list byte)
    (seg : string) :
  ahead c = x :: t ->
  (List.length t < String.length seg)%nat ->
  contents (fst (print_at c seg)) =
  behind c ++ firstn (List.length t) (list_byte_of_string seg) ++ [NUL].
Proof.
  intros Ha Hbig. unfold print_at, snprintf, contents. rewrite Ha.
  cbn [List.length fst behind ahead]. f_equal. f_equal.
  rewrite length_firstn, bytes_length, Nat.min_l by lia.
  cbn [skipn]. rewrite skipn_all. reflexivity.
Qed.

Lemma firstn_bytes_app (n : nat) (s1 s2 : string) :
  (String.length s1 <= n)%nat ->
  firstn n (list_byte_of_string (s1 ++ s2)) =
  list_byte_of_string s1
    ++ firstn (n - String.length s1) (list_byte_of_string s2).
Proof.
  intros H. rewrite bytes_app, firstn_app, bytes_length.
  rewrite firstn_all2 by (rewrite bytes_length; lia). reflexivity.
Qed.

Lemma firstn_bytes_short (n : nat) (s1 s2 : string) :
  (n <= String.length s1)%nat ->
  firstn n (list_byte_of_string (s1 ++ s2)) =
  firstn n (list_byte_of_string s1).
Proof.
  intros H. rewrite bytes_app, firstn_app, bytes_length.
  replace (n - String.length s1)%nat with 0%nat by lia.
  cbn [firstn]. apply app_nil_r.
Qed.

(** The loop on complete arcs [v1] whose text does not fit: the region
    is filled with the start of the text and a terminator. *)
Lemma arcs_loop_overflow (v2 : list byte) (arcs : list Z) :
  forall (v1 : list byte) (budget : nat) (c : cursor) (t : list byte)
         (ret : Z),
    later_arcs None v1 = Some arcs ->
    (List.length v1 + List.length v2 <= budget)%nat ->
    ahead c = NUL :: t ->
    (List.length t < String.length (later_text (map u64 arcs)))%nat ->
    arcs_loop budget (v1 ++ v2) c ret =
    Ok (- ENOBUFS,
        behind c
          ++ firstn (List.length t)
               (list_byte_of_string (later_text (map u64 arcs)))
          ++ [NUL]).
Proof.
  induction arcs as [|arc arcs IH]; intros v1 budget c t ret Hv Hb Ha Hbig;
    cbn [map later_text] in *; [cbn [String.length] in Hbig; lia|].
  destruct v1 as [|n v1]; [discriminate|].
  destruct (read_arc_complete v2 n v1 _ Hv)
    as (arc0 & arcs0 & v1' & E & Hr & Hl & Hlen).
  inversion E; subst arc0 arcs0; clear E.
  destruct budget as [|budget]; [cbn [List.length] in Hb; lia|].
  cbn [app]. rewrite (arcs_loop_step _ _ _ _ _ _ _ Hr). cbv zeta.
  set (seg := ("." ++ decimal (u64 arc))%string) in *.
  set (text := later_text (map u64 arcs)) in *.
  change ("." ++ decimal (u64 arc) ++ text)%string
    with (seg ++ text)%string in *.
  rewrite string_app_length in Hbig.
  destruct (Nat.le_gt_cases (String.length seg) (List.length t))
    as [Hfit|Hover].
  - destruct (print_fits c NUL t seg Ha Hfit) as [Hno Hadv].
    rewrite Hno, Hadv.
    rewrite (IH v1' budget _ (skipn (String.length seg) t) _ Hl).
    + cbn [behind]. rewrite length_skipn, <- app_assoc.
      rewrite (firstn_bytes_app _ seg text Hfit), <- app_assoc.
      reflexivity.
    + cbn [List.length] in Hb. lia.
    + reflexivity.
    + rewrite length_skipn. lia.
  - rewrite (print_overflows c NUL t seg Ha Hover).
    rewrite (print_overflow_contents c NUL t seg Ha Hover).
    rewrite (firstn_bytes_short _ seg text) by lia. reflexivity.
Qed.

Lemma sprint_oid_overflow (p rest : list byte) (arcs : list Z)
    (buffer : list byte) :
  oid_arcs p = Some arcs ->
  (List.length buffer <= String.length (dotted (map u64 arcs)))%nat ->
  sprint_oid (p ++ rest) buffer =
  Ok (- ENOBUFS,
      match buffer with
      | [] => []
      | _ :: _ =>
          list_byte_of_string
            (substring 0 (List.length buffer - 1) (dotted (map u64 arcs)))
            ++ [NUL]
      end).
Proof.
  intros H Hbig.
  destruct (oid_arcs_Some _ _ H) as (n & v & later & -> & Hl & ->).
  rewrite dotted_arcs in *.
  set (head := (decimal (u8 n / 40) ++ "." ++ decimal (u8 n mod 40))%string).
  set (tail := later_text (map u64 later)) in *.
  change (decimal (u8 n / 40) ++ "." ++ decimal (u8 n mod 40) ++ tail)%string
    with (decimal (u8 n / 40) ++ ("." ++ decimal (u8 n mod 40)) ++ tail)%string
    in *.
  rewrite <- !string_app_assoc in *.
  rewrite (string_app_assoc (decimal _)) in *. fold head in Hbig |- *.
  rewrite string_app_length in Hbig.
  cbn [app]. unfold sprint_oid. fold head.
  set (c := {| behind := []; ahead := buffer |}).
  rewrite (surjective_pairing (print_at c head)).
  destruct buffer as [|x t].
  - rewrite print_at_count. unfold bufsize. cbn [ahead c List.length].
    destruct (Z.geb_spec (Z.of_nat (String.length head)) (Z.of_nat 0));
      [|lia].
    unfold print_at, snprintf. reflexivity.
  - cbn [List.length] in *. rewrite Nat.sub_succ, Nat.sub_0_r.
    rewrite bytes_substring.
    destruct (Nat.le_gt_cases (String.length head) (List.length t))
      as [Hfit|Hover].
    + destruct (print_fits c x t head eq_refl Hfit) as [Hno Hadv].
      rewrite Hno, Hadv, print_at_count. cbn [behind c app].
      rewrite (arcs_loop_overflow rest later v (List.length (v ++ rest))
                 _ (skipn (String.length head) t) _ Hl).
      * cbn [behind]. rewrite length_skipn.
        rewrite (firstn_bytes_app _ head tail Hfit), <- app_assoc.
        reflexivity.
      * rewrite length_app. lia.
      * reflexivity.
      * fold tail. rewrite length_skipn. lia.
    + rewrite (print_overflows c x t head eq_refl Hover).
      rewrite (print_overflow_contents c x t head eq_refl Hover).
      rewrite (firstn_bytes_short _ head tail) by lia. reflexivity.
Qed.

(** X6: when the text of some leading complete arcs does not fit a
    non-empty buffer, [sprint_oid] returns [-ENOBUFS] and leaves the
    buffer filled with the first [bufsize - 1] characters of that text
    and a terminator, whatever octets follow those arcs; an empty buffer
    is left empty. *)
Theorem sprint_oid_overflow_buffer (p rest : list byte) (arcs : list Z)
    (buffer : list byte) :
  oid_arcs p = Some arcs ->
  (List.length buffer <= String.length (dotted (map u64 arcs)))%nat ->
  sprint_oid (p ++ rest) buffer =
  Ok (- ENOBUFS,
      match buffer with
      | [] => []
      | _ :: _ =>
          list_byte_of_string
            (substring 0 (List.length buffer - 1) (dotted (map u64 arcs)))
            ++ [NUL]
      end).
Proof. apply sprint_oid_overflow. Qed.

Lemma sprint_oid_overflow_buffer_witness :
  sprint_oid ([x2a; x86; x48] ++ [x86]) (repeat xff 6) =
  Ok (- ENOBUFS, list_byte_of_string "1.2.8" ++ [x00]).
Proof.
  apply (sprint_oid_overflow_buffer [x2a; x86; x48] [x86] [1; 2; 840]
           (repeat xff 6)).
  - reflexivity.
  - vm_compute. lia.
Defined.

(** ** [sprint_oid]: the capacity that is needed *)

(** X7: a length [r] returned by [sprint_oid] tells the capacity the
    input needs: with any buffer of more than [r] bytes the same input
    returns [r] again, and with any buffer of [r] bytes or fewer it
    returns [-ENOBUFS]. *)
Theorem sprint_oid_capacity_threshold (data buffer : list byte) (r : Z)
    (b buffer' : list byte) :
  Z.of_nat (List.length buffer) <= INT_MAX ->
  sprint_oid data buffer = Ok (r, b) -> 0 <= r ->
  (r < Z.of_nat (List.length buffer') ->
   exists b', sprint_oid data buffer' = Ok (r, b')) /\
  (Z.of_nat (List.length buffer') <= r ->
   exists b', sprint_oid data buffer' = Ok (- ENOBUFS, b')).
Proof.
  intros Hcap Hrun Hr.
  destruct (sprint_oid_return data buffer r b Hcap Hrun)
    as [H|[H|(arcs & Ha & Hroom & -> & _)]];
    [unfold EBADMSG in H; lia | unfold ENOBUFS in H; lia|].
  destruct (sprint_oid_well_formed data arcs buffer' Ha) as [Hfit Hbig].
  cbv zeta in Hfit, Hbig. split.
  - intros Hmore. rewrite Hfit, returned_length by lia.
    eexists. reflexivity.
  - intros Hless. apply Hbig. lia.
Qed.

Lemma sprint_oid_capacity_threshold_witness :
  (exists b', sprint_oid [x2a; x86; x48] (repeat x00 64) = Ok (7, b')) /\
  (exists b', sprint_oid [x2a; x86; x48] (repeat x00 5) = Ok (- ENOBUFS, b')).
Proof.
  destruct (sprint_oid_capacity_threshold [x2a; x86; x48] (repeat xff 8) 7
              (list_byte_of_string "1.2.840" ++ [x00]) (repeat x00 64))
    as [Hmore _]; [vm_compute; discriminate | reflexivity | lia|].
  destruct (sprint_oid_capacity_threshold [x2a; x86; x48] (repeat xff 8) 7
              (list_byte_of_string "1.2.840" ++ [x00]) (repeat x00 5))
    as [_ Hless]; [vm_compute; discriminate | reflexivity | lia|].
  split; [apply Hmore | apply Hless]; vm_compute; [reflexivity | discriminate].
Defined.

(** ** [sprint_oid]: arcs with leading padding *)

Lemma read_arc_padded (n : byte) (v : list byte) :
  read_arc x80 (n :: v) = read_arc n v.
Proof. destruct n; reflexivity. Qed.

Lemma arcs_loop_padded (b1 b2 : nat) (m : byte) (q : list byte)
    (c : cursor) (ret : Z) :
  (List.length (x80 :: m :: q) <= b1)%nat ->
  (List.length (m :: q) <= b2)%nat ->
  arcs_loop b1 (x80 :: m :: q) c ret = arcs_loop b2 (m :: q) c ret.
Proof.
  intros H1 H2. cbn [List.length] in H1, H2.
  destruct b1 as [|b1]; [lia|]. destruct b2 as [|b2]; [lia|].
  cbn [arcs_loop]. rewrite read_arc_padded.
  destruct (read_arc m q) as [[num v']|] eqn:E; [|reflexivity].
  apply read_arc_shorter in E.
  destruct (print_at c ("." ++ decimal num)) as [c' count].
  destruct (count >=? bufsize c); [reflexivity|].
  apply arcs_loop_budget; lia.
Qed.

(** X8: an octet [0x80] in front of an arc is not rejected and does not
    change anything: the arc that follows is read with the same value,
    so the encoding with the padding gives the same return value and the
    same buffer as the encoding without it. *)
Theorem sprint_oid_padding (p q : list byte) (arcs : list Z)
    (buffer : list byte) :
  oid_arcs p = Some arcs -> q <> [] ->
  sprint_oid (p ++ x80 :: q) buffer = sprint_oid (p ++ q) buffer.
Proof.
  intros Hp Hq.
  destruct (Nat.lt_ge_cases (String.length (dotted (map u64 arcs)))
              (List.length buffer)) as [Hroom|Hnone].
  - destruct (oid_arcs_Some _ _ Hp) as (n & v & later & -> & Hl & ->).
    destruct (sprint_oid_prefix n v (x80 :: q) later buffer Hl)
      as [Hpad _].
    destruct (sprint_oid_prefix n v q later buffer Hl) as [Hplain _].
    cbn [app].
    destruct (Hpad Hroom) as (b1 & Hb1 & ->).
    destruct (Hplain Hroom) as (b2 & Hb2 & ->).
    destruct q as [|m q]; [congruence|].
    apply arcs_loop_padded; assumption.
  - rewrite !(sprint_oid_overflow p _ arcs buffer Hp Hnone). reflexivity.
Qed.

Lemma sprint_oid_padding_witness :
  sprint_oid ([x2a] ++ x80 :: [x86; x48]) (repeat xff 8) =
  sprint_oid ([x2a] ++ [x86; x48]) (repeat xff 8).
Proof.
  apply (sprint_oid_padding [x2a] [x86; x48] [1; 2] (repeat xff 8)).
  - reflexivity.
  - discriminate.
Defined.

(** ** [look_up_OID] and [sprint_OID] together *)

Lemma sprint_OID_delegates (R : registry) (oid : Z) (buffer : list byte)
    (r : Z) (b : list byte) :
  registry_shape R -> 0 <= oid < OID__NR R ->
  sprint_oid (canonical_bytes R oid) buffer = Ok (r, b) ->
  r <> - EBADMSG ->
  sprint_OID R oid buffer = Ok (r, b).
Proof.
  intros shape Hoid Hrun Hr.
  destruct (range_within_blob R shape oid Hoid) as [H1 H2].
  pose proof (index_within_blob R shape) as Hb.
  unfold sprint_OID.
  destruct (Z.geb_spec oid (OID__NR R)); [lia|].
  rewrite !(read_index R shape) by lia. cbn [bind].
  rewrite u64_small by lia. fold (canonical_bytes R oid).
  rewrite Hrun. cbn [bind fst].
  destruct (Z.eqb_spec r (- EBADMSG)); [contradiction | reflexivity].
Qed.

(** X10: a symbol that [look_up_OID] found for a well-formed encoding is
    printed by [sprint_OID] exactly as [sprint_oid] prints the encoding
    itself: same return value, same buffer, and no [BUG_ON]. *)
Theorem sprint_OID_of_look_up_OID (R : registry) (octets : list byte)
    (s : Z) (buffer : list byte) :
  registry_shape R ->
  look_up_OID R octets = Ok s -> s <> OID__NR R ->
  well_formed octets ->
  Z.of_nat (List.length buffer) <= INT_MAX ->
  sprint_OID R s buffer = sprint_oid octets buffer.
Proof.
  intros shape Hlook Hs Hwf Hcap.
  destruct (look_up_OID_returns R octets shape) as (r & Hrun & Hr).
  rewrite Hlook in Hrun. inversion Hrun; subst r.
  destruct Hr as [Hr|[Hrange Hbytes]]; [contradiction|].
  destruct (sprint_oid_length octets buffer) as (r & b & Hprint & _).
  rewrite Hprint. apply sprint_OID_delegates; auto.
  - rewrite Hbytes. exact Hprint.
  - destruct (sprint_oid_return octets buffer r b Hcap Hprint)
      as [H|[H|(arcs & _ & _ & -> & _)]].
    + exfalso. subst r. unfold well_formed in Hwf.
      destruct (oid_arcs octets) as [arcs|] eqn:E; [|congruence].
      destruct (sprint_oid_well_formed octets arcs buffer E) as [Hfit Hbig].
      cbv zeta in Hfit, Hbig.
      destruct (Nat.lt_ge_cases (String.length (dotted (map u64 arcs)))
                  (List.length buffer)) as [Hroom|Hnone].
      * rewrite (Hfit Hroom), returned_length in Hprint by lia.
        inversion Hprint. unfold EBADMSG in *. lia.
      * destruct (Hbig Hnone) as [b' Hb']. rewrite Hb' in Hprint.
        discriminate.
    + rewrite H. discriminate.
    + unfold EBADMSG. lia.
Qed.

Lemma sprint_OID_of_look_up_OID_witness :
  sprint_OID Sample.sample 14 (repeat xff 16) =
  sprint_oid [x2b; x0e; x03; x02; x1a] (repeat xff 16).
Proof.
  apply (sprint_OID_of_look_up_OID Sample.sample [x2b; x0e; x03; x02; x1a]).
  - exact sample_shape.
  - reflexivity.
  - discriminate.
  - vm_compute. discriminate.
  - vm_compute. discriminate.
Defined.

(** ** [look_up_OID] as the inverse of the canonical encoding *)

Lemma look_up_OID_finds (R : registry) (s : Z) :
  registry_shape R -> hash_bytes_agree R -> triple_sorted R ->
  0 <= s < OID__NR R ->
  look_up_OID R (canonical_bytes R s) = Ok s.
Proof.
  intros shape Hagree Hsorted Hs.
  destruct (every_symbol_listed R shape s Hsorted Hagree Hs)
    as (p & e & Hp & He).
  pose proof (nr_range R shape) as Hr.
  pose proof (search_table_size R shape) as Hsz.
  assert (Hlt : (p < List.length (oid_search_table R))%nat)
    by (apply nth_error_Some; congruence).
  unfold look_up_OID. rewrite u32_small by lia. rewrite <- He.
  apply (search_finds R shape _ _ p e); try lia.
  - apply Sorted_StronglySorted; [apply entry_lt_transitive | exact Hsorted].
  - exact Hp.
  - rewrite (Hagree e) by (eapply nth_error_In; eassumption).
    apply key_compare_refl.
Qed.

(** X11: in a registry whose search index is in triple order,
    [look_up_OID] returns a symbol [s] below [OID__NR] for exactly one
    input, the canonical bytes of [s]; in particular two different
    symbols never share an encoding. *)
Theorem look_up_OID_inverse (R : registry) (octets : list byte) (s : Z) :
  registry_shape R -> hash_bytes_agree R -> triple_sorted R ->
  0 <= s < OID__NR R ->
  (look_up_OID R octets = Ok s <-> canonical_bytes R s = octets) /\
  (forall s', 0 <= s' < OID__NR R ->
     canonical_bytes R s' = canonical_bytes R s -> s' = s).
Proof.
  intros shape Hagree Hsorted Hs. split; [split|].
  - intros Hlook.
    destruct (look_up_OID_returns R octets shape) as (r & Hrun & Hr).
    rewrite Hlook in Hrun. inversion Hrun; subst r.
    destruct Hr as [Hr|[_ Hb]]; [lia | exact Hb].
  - intros <-. apply look_up_OID_finds; assumption.
  - intros s' Hs' Hsame.
    pose proof (look_up_OID_finds R s' shape Hagree Hsorted Hs') as H1.
    pose proof (look_up_OID_finds R s shape Hagree Hsorted Hs) as H2.
    rewrite Hsame, H2 in H1. inversion H1. reflexivity.
Qed.

Lemma look_up_OID_inverse_witness :
  look_up_OID Sample.sample [x2b; x0e; x03; x02; x1a] = Ok 14 <->
  canonical_bytes Sample.sample 14 = [x2b; x0e; x03; x02; x1a].
Proof.
  apply (look_up_OID_inverse Sample.sample [x2b; x0e; x03; x02; x1a] 14).
  - exact sample_shape.
  - exact sample_hashes.
  - exact sample_sorted.
  - vm_compute. split; [discriminate | reflexivity].
Defined.

(** ** [sprint_oid]: the smallest buffers *)

Lemma first_segment_length (n : byte) :
  (3 <= String.length (dotted (map u64 [u8 n / 40; u8 n mod 40]%Z)))%nat.
Proof. destruct n; vm_compute; lia. Qed.

(** X12: the first segment has at least three characters, so a buffer
    of three bytes or fewer is too small for every non-empty input, also
    for one that is malformed further on: [sprint_oid] returns
    [-ENOBUFS]. *)
Theorem sprint_oid_tiny_buffer (data buffer : list byte) :
  data <> [] -> (List.length buffer <= 3)%nat ->
  exists b, sprint_oid data buffer = Ok (- ENOBUFS, b).
Proof.
  intros Hne Hcap. destruct data as [|n v]; [congruence|].
  apply (sprint_oid_fails_fast [n] v [u8 n / 40; u8 n mod 40] buffer).
  - reflexivity.
  - pose proof (first_segment_length n). lia.
Qed.

Lemma sprint_oid_tiny_buffer_witness :
  exists b, sprint_oid [x2a; x86] (repeat xff 3) = Ok (- ENOBUFS, b).
Proof.
  apply (sprint_oid_tiny_buffer [x2a; x86] (repeat xff 3)).
  - discriminate.
  - vm_compute. lia.
Defined.

(** The round trip, from the first line of [look_up_OID]: a canonical
    encoding of fewer than 2^32 octets is found. *)
Lemma look_up_OID_counted_finds (R : registry) (s : Z) :
  registry_shape R -> hash_bytes_agree R -> triple_sorted R ->
  0 <= s < OID__NR R ->
  Z.of_nat (List.length (canonical_bytes R s)) < 2 ^ 32 ->
  look_up_OID_counted R (canonical_bytes R s) = Ok s.
Proof.
  intros shape Hagree Hsorted Hs Hsize.
  rewrite look_up_OID_counted_eq by exact Hsize.
  apply look_up_OID_finds; assumption.
Qed.
